(** * The ElaService reconciliation controller

    A shallow embedding of [pkg/controller/elaservice/controller.go]: the
    worker loop body [processNextWorkItem], the reconciler [syncHandler] and
    the route resolver [getRoutes] / [getRouteForTrafficTarget], together with
    the three apply operations [createPlaceholderService],
    [createOrUpdateIngress] and [createOrUpdateRoutes].

    The controller talks to collaborators that live outside the file: the
    typed API clients, the lister, the work queue, the event recorder and the
    helpers of package [util].  They are interfaces here (type classes), the
    controller is written once against them, and every call it makes is
    recorded in a trace, so that statements such as "no update is issued" are
    statements about the code and hold for every implementation of the
    collaborators. *)

From Stdlib Require Import ZArith Ascii String.
From stdpp Require Import base strings list gmap.

Local Open Scope string_scope.
Local Open Scope list_scope.

(** ** Errors *)

(** [metav1.StatusReason], the reasons an API status error carries. *)
Inductive StatusReason :=
| StatusReasonUnknown
| StatusReasonNotFound
| StatusReasonAlreadyExists
| StatusReasonConflict
| StatusReasonForbidden
| StatusReasonServerTimeout
| StatusReasonTooManyRequests
| StatusReasonInternalError.

(** A Go [error]: an API status error, or the value of [fmt.Errorf]. *)
Inductive error :=
| StatusError (reason : StatusReason) (message : string)
| ErrorString (message : string).

(** [err.Error()] *)
Definition Error (err : error) : string :=
  match err with
  | StatusError _ m => m
  | ErrorString m => m
  end.

(** [errors.IsNotFound] *)
Definition IsNotFound (err : error) : bool :=
  match err with
  | StatusError StatusReasonNotFound _ => true
  | _ => false
  end.

(** [errors.IsAlreadyExists] *)
Definition IsAlreadyExists (err : error) : bool :=
  match err with
  | StatusError StatusReasonAlreadyExists _ => true
  | _ => false
  end.

(** The reply of a typed client call [(obj, err)]: the object when [err] is
    nil, the error otherwise. *)
Inductive reply (A : Type) :=
| Reply (a : A)
| Fail (err : error).
Arguments Reply {A} a.
Arguments Fail {A} err.

(** ** API objects

    Only the fields the controller reads or writes are kept. *)

Record TrafficTarget := {
  Revision : string;
  RevisionTemplate : string;
  Percent : Z
}.

Record ElaService := {
  es_Name : string;
  es_Namespace : string;
  es_UID : string;
  (** [Spec.Rollout.Traffic] *)
  es_Traffic : list TrafficTarget
}.

Record RevisionObj := {
  rev_Name : string;
  (** [Status.ServiceName] *)
  rev_ServiceName : string
}.

Record RevisionTemplateObj := {
  rt_Name : string;
  (** [Status.Latest] *)
  rt_Latest : string
}.

(** [RevisionRoute] represents a single target to route to. *)
Record RevisionRoute := {
  Service : string;
  Weight : Z
}.

(** ** Helpers of other packages

    [util.GetEla...], the [MakeElaService...] constructors,
    [metav1.NewControllerRef] and the two key functions of package [cache]
    are not part of the controller file; the controller is parametric in
    them.  An object built for a sub-resource has a name, a list of owner
    references and a spec. *)

Class Platform := {
  OwnerReference : Type;
  ServiceSpec : Type;
  IngressSpec : Type;
  RouteRuleSpec : Type;
  GetElaNamespaceName : string → string;
  GetElaK8SIngressName : ElaService → string;
  GetElaIstioRouteRuleName : ElaService → string;
  (** [metav1.NewControllerRef(u, serviceKind)] *)
  NewControllerRef : ElaService → OwnerReference;
  (** [cache.SplitMetaNamespaceKey] *)
  SplitMetaNamespaceKey : string → string * string * option error;
  (** [cache.MetaNamespaceKeyFunc] *)
  MetaNamespaceKeyFunc : ElaService → string * option error
}.

Section Objects.
Context `{Platform}.

Record K8SService := {
  svc_Name : string;
  svc_OwnerReferences : list OwnerReference;
  svc_Spec : ServiceSpec
}.

Record Ingress := {
  ing_Name : string;
  ing_OwnerReferences : list OwnerReference;
  ing_Spec : IngressSpec
}.

Record RouteRule := {
  rr_Name : string;
  rr_ResourceVersion : string;
  rr_OwnerReferences : list OwnerReference;
  rr_Spec : RouteRuleSpec
}.

(** [service.OwnerReferences = append(service.OwnerReferences, ref)] *)
Definition svc_appendOwner (o : K8SService) (ref : OwnerReference) : K8SService :=
  {| svc_Name := svc_Name o;
     svc_OwnerReferences := svc_OwnerReferences o ++ [ref];
     svc_Spec := svc_Spec o |}.

(** [ingress.OwnerReferences = append(ingress.OwnerReferences, ref)] *)
Definition ing_appendOwner (o : Ingress) (ref : OwnerReference) : Ingress :=
  {| ing_Name := ing_Name o;
     ing_OwnerReferences := ing_OwnerReferences o ++ [ref];
     ing_Spec := ing_Spec o |}.

(** [routeRules.Spec = spec] *)
Definition set_Spec (r : RouteRule) (spec : RouteRuleSpec) : RouteRule :=
  {| rr_Name := rr_Name r;
     rr_ResourceVersion := rr_ResourceVersion r;
     rr_OwnerReferences := rr_OwnerReferences r;
     rr_Spec := spec |}.
End Objects.

(** The constructors of the derived objects, defined elsewhere in the
    package. *)
Class Makers `{Platform} := {
  MakeElaServiceK8SService : ElaService → K8SService;
  MakeElaServiceIngress : ElaService → string → Ingress;
  MakeElaServiceIstioRoutes : ElaService → string → list RevisionRoute → RouteRule;
  MakeElaServiceIstioSpec : ElaService → string → list RevisionRoute → RouteRuleSpec
}.

(** ** The collaborators

    An item of the work queue is an [interface{}]: a string key, or anything
    else (kept as its Go-syntax rendering, the [%#v] of the code). *)
Inductive QItem :=
| QString (key : string)
| QOther (gosyntax : string).

(** A typed, namespaced resource client ([ServiceInterface],
    [IngressInterface], [RouteRuleInterface], ...) over a world [W]. *)
Record ResourceInterface (W T : Type) := {
  Get : string → W → reply T * W;
  Create : T → W → reply T * W;
  Update : T → W → reply T * W;
  Delete : string → W → option error * W
}.
Arguments Get {W T} _ _ _.
Arguments Create {W T} _ _ _.
Arguments Update {W T} _ _ _.
Arguments Delete {W T} _ _ _.

(** The fields of [ElaServiceControllerImpl]: the two clientsets, the lister,
    the work queue and the recorder.  [RouteRules] may hand back no client
    (the [routeClient == nil] test of [createOrUpdateRoutes]). *)
Class Clientset (W : Type) `{Platform} := {
  Services : string → ResourceInterface W K8SService;
  Ingresses : string → ResourceInterface W Ingress;
  RevisionTemplates : string → ResourceInterface W RevisionTemplateObj;
  Revisions : string → ResourceInterface W RevisionObj;
  RouteRules : string → option (ResourceInterface W RouteRule);
  lister_Get : string → string → W → reply ElaService * W;
  workqueue_Get : W → (QItem * bool) * W;
  workqueue_Done : QItem → W → W;
  workqueue_Forget : QItem → W → W;
  workqueue_AddRateLimited : QItem → W → W;
  recorder_Event : ElaService → string → string → string → W → W
}.

(** ** Traces *)

Inductive Kind := KService | KIngress | KRouteRule | KRevision | KRevisionTemplate.

#[global] Instance Kind_eq_dec : EqDecision Kind.
Proof. solve_decision. Defined.

Section Events.
Context `{Platform}.

Inductive Obj :=
| OService (o : K8SService)
| OIngress (o : Ingress)
| ORouteRule (o : RouteRule).

(** An argument of a log line. *)
Inductive Arg :=
| ArgS (s : string)
| ArgD (n : Z)
| ArgErr (err : error)
| ArgTarget (tt : TrafficTarget)
| ArgElaService (es : ElaService).

Inductive Event :=
| ApiGet (k : Kind) (ns name : string)
| ApiCreate (ns : string) (o : Obj)
| ApiUpdate (ns : string) (o : Obj)
| ApiDelete (k : Kind) (ns name : string)
| ListerGet (ns name : string)
| QueueGet
| QueueDone (obj : QItem)
| QueueForget (obj : QItem)
| QueueAddRateLimited (obj : QItem)
| RecorderEvent (es : ElaService) (eventtype reason message : string)
| LogPrintf (format : string) (args : list Arg)
| GlogInfof (format : string) (args : list Arg)
| HandleError (err : error).

(** What a run of the controller leaves behind: the value returned, the
    world of the collaborators after it, and the calls made, oldest first. *)
Record Outcome (W A : Type) := {
  value : A;
  world : W;
  trace : list Event
}.
End Events.
Arguments value {_ W A} _.
Arguments world {_ W A} _.
Arguments trace {_ W A} _.

(** ** The controller *)

Section Controller.
Context `{Makers} {W : Type} `{!Clientset W}.

Definition M (A : Type) : Type := W → Outcome W A.

Definition ret {A} (a : A) : M A :=
  λ w, {| value := a; world := w; trace := [] |}.

Definition bind {A B} (m : M A) (k : A → M B) : M B :=
  λ w, let r := m w in
       let r' := k (value r) (world r) in
       {| value := value r'; world := world r'; trace := trace r ++ trace r' |}.

(** A call to a collaborator: run it on the world, record the event. *)
Definition call {A} (ev : Event) (f : W → A * W) : M A :=
  λ w, let p := f w in {| value := p.1; world := p.2; trace := [ev] |}.

Definition call_ (ev : Event) (f : W → W) : M unit :=
  call ev (λ w, (tt, f w)).

(** A log line changes nothing but the trace. *)
Definition emit (ev : Event) : M unit := call_ ev id.

Notation "'let*' x := m 'in' k" := (bind m (λ x, k))
  (at level 10, x name, m at level 100, k at level 200, only parsing).
Notation "m ;;; k" := (bind m (λ _, k))
  (at level 100, k at level 200, right associativity, only parsing).

Definition Printf (format : string) (args : list Arg) : M unit :=
  emit (LogPrintf format args).
Definition Infof (format : string) (args : list Arg) : M unit :=
  emit (GlogInfof format args).
(** [runtime.HandleError(err)] logs the error; it re-queues nothing. *)
Definition runtime_HandleError (err : error) : M unit :=
  emit (HandleError err).

(** *** Route resolution *)

(** The zero value [RevisionRoute{}]. *)
Definition zeroRoute : RevisionRoute := {| Service := ""; Weight := 0 |}.

Definition getRouteForTrafficTarget (tt_ : TrafficTarget) (ns : string)
  : M (RevisionRoute * option error) :=
  let elaNS := GetElaNamespaceName ns in
  (* If template specified, fetch last revision otherwise use Revision *)
  let revisionName := Revision tt_ in
  let* resolved :=
    (if bool_decide (RevisionTemplate tt_ ≠ "") then
       let rtClient := RevisionTemplates ns in
       let* r := call (ApiGet KRevisionTemplate ns (RevisionTemplate tt_))
                      (Get rtClient (RevisionTemplate tt_)) in
       match r with
       | Fail err => ret (inr err)
       | Reply rt => ret (inl (rt_Latest rt))
       end
     else ret (inl revisionName)) in
  match resolved with
  | inr err => ret (zeroRoute, Some err)
  | inl revisionName =>
      let prClient := Revisions ns in
      let* r := call (ApiGet KRevision ns revisionName) (Get prClient revisionName) in
      match r with
      | Fail err =>
          Printf "Failed to fetch Revision: %s : %s" [ArgS revisionName; ArgErr err] ;;;
          ret (zeroRoute, Some err)
      | Reply rev =>
          ret ({| Service := rev_ServiceName rev +:+ "." +:+ elaNS;
                  Weight := Percent tt_ |}, None)
      end
  end.

(** The [for _, tt := range u.Spec.Rollout.Traffic] loop of [getRoutes], with
    [acc] the slice built so far (the [ret] of the source).  On an error the
    function returns [nil, err]; a nil slice is the empty list. *)
Fixpoint getRoutes_loop (ns : string) (traffic : list TrafficTarget)
    (acc : list RevisionRoute) : M (list RevisionRoute * option error) :=
  match traffic with
  | [] => ret (acc, None)
  | tt_ :: traffic' =>
      let* r := getRouteForTrafficTarget tt_ ns in
      match r with
      | (_, Some err) =>
          Printf "Failed to get a route for target %+v : %q" [ArgTarget tt_; ArgErr err] ;;;
          ret ([], Some err)
      | (rr, None) => getRoutes_loop ns traffic' (acc ++ [rr])
      end
  end.

Definition getRoutes (u : ElaService) : M (list RevisionRoute * option error) :=
  Printf "Figuring out routes for ElaService: %s" [ArgS (es_Name u)] ;;;
  getRoutes_loop (es_Namespace u) (es_Traffic u) [].

(** *** The three apply operations *)

(** The error of a reply, nil when there is none. *)
Definition err_of {A} (r : reply A) : option error :=
  match r with
  | Reply _ => None
  | Fail err => Some err
  end.

Definition createPlaceholderService (u : ElaService) (ns : string) : M (option error) :=
  let service := MakeElaServiceK8SService u in
  let serviceRef := NewControllerRef u in
  let service := svc_appendOwner service serviceRef in
  let sc := Services ns in
  let* r := call (ApiCreate ns (OService service)) (Create sc service) in
  match err_of r with
  | Some err =>
      if negb (IsAlreadyExists err) then
        Printf "Failed to create service: %s" [ArgErr err] ;;;
        ret (Some err)
      else
        Printf "Created service: %q" [ArgS (svc_Name service)] ;;;
        ret None
  | None =>
      Printf "Created service: %q" [ArgS (svc_Name service)] ;;;
      ret None
  end.

Definition createOrUpdateIngress (es : ElaService) (ns : string) : M (option error) :=
  let ingressName := GetElaK8SIngressName es in
  let ic := Ingresses ns in
  (* Check to see if we need to create or update *)
  let ingress := MakeElaServiceIngress es ns in
  let serviceRef := NewControllerRef es in
  let ingress := ing_appendOwner ingress serviceRef in
  let* r := call (ApiGet KIngress ns ingressName) (Get ic ingressName) in
  match err_of r with
  | Some err =>
      if negb (IsNotFound err) then ret (Some err)
      else
        let* c := call (ApiCreate ns (OIngress ingress)) (Create ic ingress) in
        let createErr := err_of c in
        Printf "Created ingress %q" [ArgS (ing_Name ingress)] ;;;
        ret createErr
  | None => ret None
  end.

(** [for _, r := range routes { log.Printf(...) }] *)
Fixpoint logRoutes (routes : list RevisionRoute) : M unit :=
  match routes with
  | [] => ret tt
  | r :: routes' =>
      Printf "Adding a route to %q Weight: %d" [ArgS (Service r); ArgD (Weight r)] ;;;
      logRoutes routes'
  end.

Definition createOrUpdateRoutes (u : ElaService) (ns : string) : M (option error) :=
  (* grab a client that's specific to RouteRule. *)
  match RouteRules ns with
  | None =>
      Printf "Failed to create resource client" [] ;;;
      ret (Some (ErrorString "Couldn't get a routeClient"))
  | Some routeClient =>
      let* r := getRoutes u in
      match r with
      | (_, Some err) =>
          Printf "Failed to get routes for %s : %q" [ArgS (es_Name u); ArgErr err] ;;;
          ret (Some err)
      | (routes, None) =>
          if (length routes =? 0)%nat then
            Printf "No routes were found for the service %q" [ArgS (es_Name u)] ;;;
            ret None
          else
            logRoutes routes ;;;
            let routeRuleName := GetElaIstioRouteRuleName u in
            let* g := call (ApiGet KRouteRule ns routeRuleName)
                           (Get routeClient routeRuleName) in
            match g with
            | Fail err =>
                if negb (IsNotFound err) then ret (Some err)
                else
                  let routeRules := MakeElaServiceIstioRoutes u ns routes in
                  let* c := call (ApiCreate ns (ORouteRule routeRules))
                                 (Create routeClient routeRules) in
                  let createErr := err_of c in
                  ret createErr
            | Reply routeRules =>
                let routeRules := set_Spec routeRules (MakeElaServiceIstioSpec u ns routes) in
                let* c := call (ApiUpdate ns (ORouteRule routeRules))
                               (Update routeClient routeRules) in
                match err_of c with
                | Some err => ret (Some err)
                | None => ret None
                end
            end
      end
  end.

(** *** The reconciler *)

(** [if err != nil { if !tolerated(err) { ... } }]: the error that enters the
    inner block, if any. *)
Definition fatal_unless (tolerated : error → bool) (err : option error) : option error :=
  match err with
  | Some e => if negb (tolerated e) then Some e else None
  | None => None
  end.

Definition SuccessSynced : string := "Synced".
Definition MessageResourceSynced : string := "ElaService synced successfully".
Definition EventTypeNormal : string := "Normal".

Definition syncHandler (key : string) : M (option error) :=
  (* Convert the namespace/name string into a distinct namespace and name *)
  match SplitMetaNamespaceKey key with
  | (_, _, Some _) =>
      runtime_HandleError (ErrorString ("invalid resource key: " +:+ key)) ;;;
      ret None
  | (namespace, name, None) =>
      (* Get the ElaService resource with this namespace/name *)
      let* r := call (ListerGet namespace name) (lister_Get namespace name) in
      match r with
      | Fail err =>
          (* The resource may no longer exist, in which case we stop processing. *)
          if IsNotFound err then
            runtime_HandleError
              (ErrorString ("elaservice '" +:+ key +:+ "' in work queue no longer exists")) ;;;
            ret None
          else ret (Some err)
      | Reply es =>
          Infof "Running reconcile ElaService for %s\n%+v\n"
                [ArgS (es_Name es); ArgElaService es] ;;;
          Printf "Creating/Updating placeholder k8s services" [] ;;;
          let* err := createPlaceholderService es namespace in
          match err with
          | Some err => ret (Some err)
          | None =>
              (* Then create the Ingress rule for this service *)
              Printf "Creating or updating ingress rule" [] ;;;
              let* err := createOrUpdateIngress es namespace in
              match fatal_unless IsAlreadyExists err with
              | Some err =>
                  Printf "Failed to create ingress rule: %s" [ArgErr err] ;;;
                  ret (Some err)
              | None =>
                  (* Then create the actual route rules. *)
                  Printf "Creating istio route rules" [] ;;;
                  let* err := createOrUpdateRoutes es namespace in
                  match err with
                  | Some err =>
                      Printf "Failed to create Routes: %s" [ArgErr err] ;;;
                      ret (Some err)
                  | None =>
                      call_ (RecorderEvent es EventTypeNormal SuccessSynced MessageResourceSynced)
                            (recorder_Event es EventTypeNormal SuccessSynced
                                            MessageResourceSynced) ;;;
                      ret None
                  end
              end
          end
      end
  end.

(** *** The worker *)

(** [processNextWorkItem] reads a single work item off the workqueue and
    attempts to process it, by calling the [syncHandler].  The inner
    function's deferred [Done] runs when that function returns. *)
Definition processNextWorkItem : M bool :=
  let* g := call QueueGet workqueue_Get in
  let obj := g.1 in
  let shutdown := g.2 in
  if shutdown then ret false
  else
    let* err :=
      (let* err :=
         match obj with
         | QOther gosyntax =>
             call_ (QueueForget obj) (workqueue_Forget obj) ;;;
             runtime_HandleError
               (ErrorString ("expected string in workqueue but got " +:+ gosyntax)) ;;;
             ret None
         | QString key =>
             let* err := syncHandler key in
             match err with
             | Some err =>
                 ret (Some (ErrorString
                   ("error syncing '" +:+ key +:+ "': " +:+ Error err)))
             | None =>
                 call_ (QueueForget obj) (workqueue_Forget obj) ;;;
                 Infof "Successfully synced '%s'" [ArgS key] ;;;
                 ret None
             end
         end in
       (* defer c.workqueue.Done(obj) *)
       call_ (QueueDone obj) (workqueue_Done obj) ;;;
       ret err) in
    match err with
    | Some err =>
        runtime_HandleError err ;;;
        ret true
    | None => ret true
    end.

(** [enqueueElaService], the handler of the informer's add and update
    notifications. *)
Definition enqueueElaService (obj : ElaService) : M unit :=
  match MetaNamespaceKeyFunc obj with
  | (_, Some err) => runtime_HandleError err
  | (key, None) =>
      call_ (QueueAddRateLimited (QString key)) (workqueue_AddRateLimited (QString key))
  end.

(** [runWorker]: [for c.processNextWorkItem() { }].  The loop has no bound of
    its own; [fuel] bounds the number of items looked at.  The result is
    [true] when the loop ended (a call returned [false]) and [false] when the
    fuel ran out with the loop still going. *)
Fixpoint runWorker (fuel : nat) : M bool :=
  match fuel with
  | O => ret false
  | S fuel' =>
      let* continue := processNextWorkItem in
      if continue then runWorker fuel' else ret true
  end.

(** A notification of the informer. *)
Inductive Notification :=
| Added (obj : ElaService)
| Updated (old new : ElaService)
| Deleted (obj : ElaService).

(** The handlers [NewController] registers: [AddFunc] is
    [enqueueElaService], [UpdateFunc] enqueues the new object, and there is
    no [DeleteFunc]. *)
Definition handleNotification (n : Notification) : M unit :=
  match n with
  | Added obj => enqueueElaService obj
  | Updated _ new => enqueueElaService new
  | Deleted _ => ret tt
  end.

(** *** Route resolution in the words of the specification

    Section 4.4: a target with a template resolves to the template's latest
    revision, any other target to its [Revision]; the revision object is then
    fetched.  [spec_resolve] is the revision a target resolves to (or the
    error of the fetch that failed), [spec_resolve_all] resolves the targets
    in order up to the first failure, and [route_of] composes the route of a
    resolved target. *)
Definition spec_resolve (ns : string) (tt_ : TrafficTarget) (w : W) : reply RevisionObj * W :=
  if bool_decide (RevisionTemplate tt_ ≠ "") then
    match Get (RevisionTemplates ns) (RevisionTemplate tt_) w with
    | (Fail err, w1) => (Fail err, w1)
    | (Reply rt, w1) => Get (Revisions ns) (rt_Latest rt) w1
    end
  else Get (Revisions ns) (Revision tt_) w.

Fixpoint spec_resolve_all (ns : string) (tts : list TrafficTarget) (w : W)
  : reply (list RevisionObj) * W :=
  match tts with
  | [] => (Reply [], w)
  | tt_ :: tts' =>
      match spec_resolve ns tt_ w with
      | (Fail err, w1) => (Fail err, w1)
      | (Reply rev, w1) =>
          match spec_resolve_all ns tts' w1 with
          | (Fail err, w2) => (Fail err, w2)
          | (Reply revs, w2) => (Reply (rev :: revs), w2)
          end
      end
  end.

Definition route_of (ns : string) (tt_ : TrafficTarget) (rev : RevisionObj) : RevisionRoute :=
  {| Service := rev_ServiceName rev +:+ "." +:+ GetElaNamespaceName ns;
     Weight := Percent tt_ |}.

(** *** Classes of events *)

Definition is_delete (ev : Event) : bool :=
  match ev with
  | ApiDelete _ _ _ => true
  | _ => false
  end.

(** A write (create, update or delete) to a resource of kind [k]. *)
Definition kind_of (o : Obj) : Kind :=
  match o with
  | OService _ => KService
  | OIngress _ => KIngress
  | ORouteRule _ => KRouteRule
  end.

Definition is_create_of (k : Kind) (ev : Event) : bool :=
  match ev with
  | ApiCreate _ o => bool_decide (kind_of o = k)
  | _ => false
  end.

Definition is_update_of (k : Kind) (ev : Event) : bool :=
  match ev with
  | ApiUpdate _ o => bool_decide (kind_of o = k)
  | _ => false
  end.

Definition is_queue_call (ev : Event) : bool :=
  match ev with
  | QueueGet | QueueDone _ | QueueForget _ | QueueAddRateLimited _ => true
  | _ => false
  end.

(** A create, update or delete sent to the API server. *)
Definition is_write (ev : Event) : bool :=
  match ev with
  | ApiCreate _ _ | ApiUpdate _ _ | ApiDelete _ _ _ => true
  | _ => false
  end.

(** Every event of every run of [m] satisfies [P]. *)
Definition emits {A} (P : Event → Prop) (m : M A) : Prop :=
  ∀ w, Forall P (trace (m w)).

(** The events the route resolver can emit: reads of revisions and
    templates, and log lines. *)
Definition resolver_event (ev : Event) : Prop :=
  match ev with
  | ApiGet KRevision _ _ | ApiGet KRevisionTemplate _ _ | LogPrintf _ _ => True
  | _ => False
  end.

(** The events a reconciliation can emit: reads, creates, updates of
    route rules only, the recorded event and log lines. *)
Definition sync_event (ev : Event) : Prop :=
  match ev with
  | ListerGet _ _ | ApiGet _ _ _ | ApiCreate _ _ | ApiUpdate _ (ORouteRule _)
  | RecorderEvent _ _ _ _ | LogPrintf _ _ | GlogInfof _ _ | HandleError _ => True
  | _ => False
  end.

(** The events of a reconciliation up to the creation of the placeholder
    service: the lookup of the resource and two log lines. *)
Definition sync_prologue (ns name : string) (es : ElaService) : list Event :=
  [ListerGet ns name;
   GlogInfof "Running reconcile ElaService for %s\n%+v\n" [ArgS (es_Name es); ArgElaService es];
   LogPrintf "Creating/Updating placeholder k8s services" []].

(** The calls to the work queue among the events of a run. *)
Definition queue_calls (evs : list Event) : list Event :=
  List.filter is_queue_call evs.

Definition is_get (ev : Event) : bool :=
  match ev with
  | QueueGet => true
  | _ => false
  end.

(** A lookup of the watched resource in the lister. *)
Definition is_lister_get (ev : Event) : bool :=
  match ev with
  | ListerGet _ _ => true
  | _ => false
  end.

Definition is_done (ev : Event) : bool :=
  match ev with
  | QueueDone _ => true
  | _ => false
  end.

Definition is_recorder (ev : Event) : bool :=
  match ev with
  | RecorderEvent _ _ _ _ => true
  | _ => false
  end.

(** A call that reaches the API server, the lister or the recorder. *)
Definition is_api_call (ev : Event) : bool :=
  match ev with
  | ApiGet _ _ _ | ApiCreate _ _ | ApiUpdate _ _ | ApiDelete _ _ _
  | ListerGet _ _ | RecorderEvent _ _ _ _ => true
  | _ => false
  end.

(** The events the three apply operations can emit. *)
Definition apply_event (ev : Event) : Prop :=
  match ev with
  | ApiGet _ _ _ | ApiCreate _ _ | ApiUpdate _ _ | LogPrintf _ _ => True
  | _ => False
  end.

(** Every write of the event goes to namespace [ns]. *)
Definition writes_to (ns : string) (ev : Event) : Prop :=
  match ev with
  | ApiCreate ns' _ | ApiUpdate ns' _ | ApiDelete _ ns' _ => ns' = ns
  | _ => True
  end.

(** A service or an ingress created by the event has the controller
    reference of [es] as its last owner reference. *)
Definition owned_by (es : ElaService) (ev : Event) : Prop :=
  match ev with
  | ApiCreate _ (OService o) => last (svc_OwnerReferences o) = Some (NewControllerRef es)
  | ApiCreate _ (OIngress o) => last (ing_OwnerReferences o) = Some (NewControllerRef es)
  | _ => True
  end.

(** The event is a read of a revision or of a template in namespace [ns],
    or a log line. *)
Definition reads_in (ns : string) (ev : Event) : Prop :=
  match ev with
  | ApiGet KRevision ns' _ | ApiGet KRevisionTemplate ns' _ => ns' = ns
  | LogPrintf _ _ => True
  | _ => False
  end.
End Controller.
Arguments M {_} W A.

(** ** The work queue

    Modelled from the spec: the rate-limited work queue
    ([k8s.io/client-go/util/workqueue]), of which the controller file holds
    only the calls.  [Add] enqueues a key, deduplicating pending duplicates
    and deferring a key that is in flight; [Get] hands out the oldest pending
    key and marks it in flight; [Done] ends the flight and re-queues the key
    if it was added again meanwhile; [Forget] resets the retry counter of a
    key; [AddRateLimited] counts one more retry and adds the key (the delay
    the counter stands for is real time and is left out). *)
Module Workqueue.

#[global] Instance QItem_eq_dec : EqDecision QItem.
Proof. solve_decision. Defined.

#[global] Instance QItem_countable : Countable QItem :=
  inj_countable'
    (λ x, match x with QString s => inl s | QOther s => inr s end)
    (λ y, match y with inl s => QString s | inr s => QOther s end)
    (λ x, match x with QString _ => eq_refl | QOther _ => eq_refl end).

Record t := {
  queue : list QItem;
  dirty : gset QItem;
  processing : gset QItem;
  failures : gmap QItem nat;
  shuttingDown : bool
}.

Definition empty : t :=
  {| queue := []; dirty := ∅; processing := ∅; failures := ∅; shuttingDown := false |}.

Definition Add (item : QItem) (q : t) : t :=
  if decide (item ∈ dirty q) then q
  else
    {| queue := if decide (item ∈ processing q) then queue q else queue q ++ [item];
       dirty := {[item]} ∪ dirty q;
       processing := processing q;
       failures := failures q;
       shuttingDown := shuttingDown q |}.

(** [Get] on an empty queue blocks: there is no result. *)
Definition Get (q : t) : option (QItem * t) :=
  match queue q with
  | [] => None
  | item :: rest =>
      Some (item, {| queue := rest;
                     dirty := dirty q ∖ {[item]};
                     processing := {[item]} ∪ processing q;
                     failures := failures q;
                     shuttingDown := shuttingDown q |})
  end.

Definition Done (item : QItem) (q : t) : t :=
  {| queue := if decide (item ∈ dirty q) then queue q ++ [item] else queue q;
     dirty := dirty q;
     processing := processing q ∖ {[item]};
     failures := failures q;
     shuttingDown := shuttingDown q |}.

Definition NumRequeues (item : QItem) (q : t) : nat :=
  default 0%nat (failures q !! item).

Definition Forget (item : QItem) (q : t) : t :=
  {| queue := queue q;
     dirty := dirty q;
     processing := processing q;
     failures := delete item (failures q);
     shuttingDown := shuttingDown q |}.

Definition AddRateLimited (item : QItem) (q : t) : t :=
  Add item
    {| queue := queue q;
       dirty := dirty q;
       processing := processing q;
       failures := <[item := S (NumRequeues item q)]> (failures q);
       shuttingDown := shuttingDown q |}.

Definition ShutDown (q : t) : t :=
  {| queue := queue q;
     dirty := dirty q;
     processing := processing q;
     failures := failures q;
     shuttingDown := true |}.

(** A single worker emptying the queue: the items in the order they are
    delivered, each one finished before the next [Get]. *)
Fixpoint drain (fuel : nat) (q : t) : list QItem :=
  match fuel with
  | O => []
  | S fuel' =>
      match Get q with
      | None => []
      | Some (item, q') => item :: drain fuel' (Done item q')
      end
  end.

End Workqueue.

(** ** A sample cluster

    An in-memory stand-in for the collaborators, in the manner of the fake
    clientsets used to test controllers: stores keyed by namespace and name,
    a table of injected failures, and the work queue above.  It serves to run
    the controller on concrete inputs. *)
Module Fake.

(** [strings.Split(s, sep)] for a one-character separator. *)
Fixpoint split_on (sep : ascii) (s : string) : list string :=
  match s with
  | EmptyString => [""]
  | String c s' =>
      if Ascii.eqb c sep then "" :: split_on sep s'
      else match split_on sep s' with
           | [] => [String c ""]
           | p :: ps => String c p :: ps
           end
  end.

#[global] Instance platform : Platform := {|
  OwnerReference := string;
  ServiceSpec := unit;
  IngressSpec := string;
  RouteRuleSpec := list RevisionRoute;
  GetElaNamespaceName ns := ns +:+ "-ela";
  GetElaK8SIngressName u := es_Name u +:+ "-ela-ingress";
  GetElaIstioRouteRuleName u := es_Name u +:+ "-istio";
  NewControllerRef u := es_UID u;
  SplitMetaNamespaceKey key :=
    match split_on "/" key with
    | [name] => ("", name, None)
    | [namespace; name] => (namespace, name, None)
    | _ => ("", "", Some (ErrorString ("unexpected key format: " +:+ key)))
    end;
  MetaNamespaceKeyFunc u :=
    if bool_decide (es_Namespace u = "") then (es_Name u, None)
    else (es_Namespace u +:+ "/" +:+ es_Name u, None)
|}.

#[global] Instance makers : Makers := {|
  MakeElaServiceK8SService u :=
    {| svc_Name := es_Name u +:+ "-service"; svc_OwnerReferences := []; svc_Spec := () |};
  MakeElaServiceIngress u ns :=
    {| ing_Name := es_Name u +:+ "-ela-ingress"; ing_OwnerReferences := [];
       ing_Spec := es_Name u +:+ "-service" |};
  MakeElaServiceIstioRoutes u ns routes :=
    {| rr_Name := es_Name u +:+ "-istio"; rr_ResourceVersion := "";
       rr_OwnerReferences := [es_UID u]; rr_Spec := routes |};
  MakeElaServiceIstioSpec u ns routes := routes
|}.

(** The calls a failure can be injected into. *)
Inductive Op :=
| OpGet (k : Kind)
| OpCreate (k : Kind)
| OpUpdate (k : Kind)
| OpDelete (k : Kind)
| OpLister.

#[global] Instance Op_eq_dec : EqDecision Op.
Proof. solve_decision. Defined.

Record World := {
  elaservices : gmap (string * string) ElaService;
  services : gmap (string * string) K8SService;
  ingresses : gmap (string * string) Ingress;
  routerules : gmap (string * string) RouteRule;
  revisions : gmap (string * string) RevisionObj;
  templates : gmap (string * string) RevisionTemplateObj;
  faults : Op → option error;
  wq : Workqueue.t;
  recorded : list (ElaService * string * string * string)
}.

Definition no_faults : Op → option error := λ _, None.

Definition fail_on (op : Op) (err : error) : Op → option error :=
  λ o, if decide (o = op) then Some err else None.

Definition notFound (name : string) : error :=
  StatusError StatusReasonNotFound (name +:+ " not found").
Definition alreadyExists (name : string) : error :=
  StatusError StatusReasonAlreadyExists (name +:+ " already exists").

(** One kind of resource in one namespace: where it is stored in the world
    and how an object is named. *)
Definition resource {T : Type} (k : Kind) (name_of : T → string)
    (load : World → gmap (string * string) T)
    (save : gmap (string * string) T → World → World)
    (ns : string) : ResourceInterface World T :=
  {| Get := λ name w,
       match faults w (OpGet k) with
       | Some err => (Fail err, w)
       | None =>
           match load w !! (ns, name) with
           | Some o => (Reply o, w)
           | None => (Fail (notFound name), w)
           end
       end;
     Create := λ o w,
       match faults w (OpCreate k) with
       | Some err => (Fail err, w)
       | None =>
           match load w !! (ns, name_of o) with
           | Some _ => (Fail (alreadyExists (name_of o)), w)
           | None => (Reply o, save (<[(ns, name_of o) := o]> (load w)) w)
           end
       end;
     Update := λ o w,
       match faults w (OpUpdate k) with
       | Some err => (Fail err, w)
       | None =>
           match load w !! (ns, name_of o) with
           | Some _ => (Reply o, save (<[(ns, name_of o) := o]> (load w)) w)
           | None => (Fail (notFound (name_of o)), w)
           end
       end;
     Delete := λ name w,
       match faults w (OpDelete k) with
       | Some err => (Some err, w)
       | None =>
           match load w !! (ns, name) with
           | Some _ => (None, save (delete (ns, name) (load w)) w)
           | None => (Some (notFound name), w)
           end
       end |}.

Definition set_services (m : gmap (string * string) K8SService) (w : World) : World :=
  {| elaservices := elaservices w; services := m; ingresses := ingresses w;
     routerules := routerules w; revisions := revisions w; templates := templates w;
     faults := faults w; wq := wq w; recorded := recorded w |}.

Definition set_ingresses (m : gmap (string * string) Ingress) (w : World) : World :=
  {| elaservices := elaservices w; services := services w; ingresses := m;
     routerules := routerules w; revisions := revisions w; templates := templates w;
     faults := faults w; wq := wq w; recorded := recorded w |}.

Definition set_routerules (m : gmap (string * string) RouteRule) (w : World) : World :=
  {| elaservices := elaservices w; services := services w; ingresses := ingresses w;
     routerules := m; revisions := revisions w; templates := templates w;
     faults := faults w; wq := wq w; recorded := recorded w |}.

Definition set_revisions (m : gmap (string * string) RevisionObj) (w : World) : World :=
  {| elaservices := elaservices w; services := services w; ingresses := ingresses w;
     routerules := routerules w; revisions := m; templates := templates w;
     faults := faults w; wq := wq w; recorded := recorded w |}.

Definition set_templates (m : gmap (string * string) RevisionTemplateObj) (w : World) : World :=
  {| elaservices := elaservices w; services := services w; ingresses := ingresses w;
     routerules := routerules w; revisions := revisions w; templates := m;
     faults := faults w; wq := wq w; recorded := recorded w |}.

Definition set_elaservices (m : gmap (string * string) ElaService) (w : World) : World :=
  {| elaservices := m; services := services w; ingresses := ingresses w;
     routerules := routerules w; revisions := revisions w; templates := templates w;
     faults := faults w; wq := wq w; recorded := recorded w |}.

Definition set_faults (f : Op → option error) (w : World) : World :=
  {| elaservices := elaservices w; services := services w; ingresses := ingresses w;
     routerules := routerules w; revisions := revisions w; templates := templates w;
     faults := f; wq := wq w; recorded := recorded w |}.

Definition set_wq (q : Workqueue.t) (w : World) : World :=
  {| elaservices := elaservices w; services := services w; ingresses := ingresses w;
     routerules := routerules w; revisions := revisions w; templates := templates w;
     faults := faults w; wq := q; recorded := recorded w |}.

Definition record_event (e : ElaService * string * string * string) (w : World) : World :=
  {| elaservices := elaservices w; services := services w; ingresses := ingresses w;
     routerules := routerules w; revisions := revisions w; templates := templates w;
     faults := faults w; wq := wq w; recorded := recorded w ++ [e] |}.

(** A [Get] on the empty queue would block; the sample worker is only run to
    the point where the queue is empty, where it is told to shut down. *)
#[global] Instance clientset : Clientset World := {|
  Services := resource KService svc_Name services set_services;
  Ingresses := resource KIngress ing_Name ingresses set_ingresses;
  RevisionTemplates := resource KRevisionTemplate rt_Name templates set_templates;
  Revisions := resource KRevision rev_Name revisions set_revisions;
  RouteRules ns := Some (resource KRouteRule rr_Name routerules set_routerules ns);
  lister_Get ns name w :=
    match faults w OpLister with
    | Some err => (Fail err, w)
    | None =>
        match elaservices w !! (ns, name) with
        | Some es => (Reply es, w)
        | None => (Fail (notFound name), w)
        end
    end;
  workqueue_Get w :=
    match Workqueue.Get (wq w) with
    | Some (item, q) => ((item, false), set_wq q w)
    | None => ((QOther "<nil>", true), w)
    end;
  workqueue_Done item w := set_wq (Workqueue.Done item (wq w)) w;
  workqueue_Forget item w := set_wq (Workqueue.Forget item (wq w)) w;
  workqueue_AddRateLimited item w := set_wq (Workqueue.AddRateLimited item (wq w)) w;
  recorder_Event es eventtype reason message w :=
    record_event (es, eventtype, reason, message) w
|}.

Definition empty : World :=
  {| elaservices := ∅; services := ∅; ingresses := ∅; routerules := ∅;
     revisions := ∅; templates := ∅; faults := no_faults;
     wq := Workqueue.empty; recorded := [] |}.

(** The resource [svc-a] of namespace [default], its traffic split 90/10
    over two revisions. *)
Definition svc_a : ElaService :=
  {| es_Name := "svc-a"; es_Namespace := "default"; es_UID := "uid-svc-a";
     es_Traffic := [ {| Revision := "rev-1"; RevisionTemplate := ""; Percent := 90 |};
                     {| Revision := "rev-2"; RevisionTemplate := ""; Percent := 10 |} ] |}.

Definition rev_1 : RevisionObj := {| rev_Name := "rev-1"; rev_ServiceName := "rev-1-svc" |}.
Definition rev_2 : RevisionObj := {| rev_Name := "rev-2"; rev_ServiceName := "rev-2-svc" |}.

Definition cluster : World :=
  set_elaservices {[ ("default", "svc-a") := svc_a ]}
    (set_revisions {[ ("default", "rev-1") := rev_1; ("default", "rev-2") := rev_2 ]} empty).


(** The routes of [svc-a] and its route rule. *)
Definition routes_a : list RevisionRoute :=
  [ {| Service := "rev-1-svc.default-ela"; Weight := 90 |};
    {| Service := "rev-2-svc.default-ela"; Weight := 10 |} ].

Definition rule_a : RouteRule := MakeElaServiceIstioRoutes svc_a "default" routes_a.

Definition service_a : K8SService :=
  svc_appendOwner (MakeElaServiceK8SService svc_a) (NewControllerRef svc_a).

(** The typed client of the route rules of namespace [default]. *)
Definition routeClient : ResourceInterface World RouteRule :=
  resource KRouteRule rr_Name routerules set_routerules "default".

(** The cluster once [svc-a] has been reconciled. *)
Definition synced : World := world (syncHandler "default/svc-a" cluster).

(** The cluster without revision [rev-2]. *)
Definition cluster_without_rev_2 : World :=
  set_revisions {[ ("default", "rev-1") := rev_1 ]} cluster.

(** That cluster when a reconciliation of [svc-a] reaches the route step. *)
Definition before_routes : World :=
  world (createOrUpdateIngress svc_a "default"
           (world (createPlaceholderService svc_a "default" cluster_without_rev_2))).

(** The cluster without [rev-2], with the key of [svc-a] put on the queue by
    the update handler. *)
Definition cluster_without_rev_2_enqueued : World :=
  world (enqueueElaService svc_a cluster_without_rev_2).

(** A resource with no traffic target yet. *)
Definition svc_idle : ElaService :=
  {| es_Name := "svc-idle"; es_Namespace := "default"; es_UID := "uid-svc-idle";
     es_Traffic := [] |}.

(** A target that names both a revision and a template, and a cluster whose
    template [tmpl] points at [rev-2]. *)
Definition target_both : TrafficTarget :=
  {| Revision := "rev-1"; RevisionTemplate := "tmpl"; Percent := 100 |}.

Definition tmpl : RevisionTemplateObj := {| rt_Name := "tmpl"; rt_Latest := "rev-2" |}.

Definition cluster_with_template : World :=
  set_templates {[ ("default", "tmpl") := tmpl ]} cluster.

(** The cluster while the API server times out on the creation of services,
    with the key of [svc-a] put on the queue by the update handler. *)
Definition timeout : error := StatusError StatusReasonServerTimeout "request timed out".

(** The healthy cluster with the key of [svc-a] put on the queue by the
    update handler. *)
Definition cluster_enqueued : World := world (enqueueElaService svc_a cluster).

(** The ingress of [svc-a]. *)
Definition ingress_a : Ingress :=
  ing_appendOwner (MakeElaServiceIngress svc_a "default") (NewControllerRef svc_a).

(** [svc-a] with a third traffic target. *)
Definition svc_a_more : ElaService :=
  {| es_Name := "svc-a"; es_Namespace := "default"; es_UID := "uid-svc-a";
     es_Traffic := es_Traffic svc_a ++
                   [ {| Revision := "rev-3"; RevisionTemplate := ""; Percent := 0 |} ] |}.

(** The healthy cluster with an item on the queue that is not a string. *)
Definition cluster_stray_item : World :=
  set_wq (Workqueue.Add (QOther "42") (wq cluster)) cluster.

(** The cluster while the API server refuses to read ingresses or route
    rules. *)
Definition forbidden : error := StatusError StatusReasonForbidden "forbidden".

Definition cluster_ingress_forbidden : World :=
  set_faults (fail_on (OpGet KIngress) forbidden) cluster.

Definition cluster_rules_forbidden : World :=
  set_faults (fail_on (OpGet KRouteRule) forbidden) cluster.

(** The collaborators of the sample cluster, except that no client for route
    rules can be had. *)
Definition clientset_without_rules : Clientset World :=
  {| Services := Services (Clientset := clientset);
     Ingresses := Ingresses (Clientset := clientset);
     RevisionTemplates := RevisionTemplates (Clientset := clientset);
     Revisions := Revisions (Clientset := clientset);
     RouteRules := λ _, None;
     lister_Get := lister_Get (Clientset := clientset);
     workqueue_Get := workqueue_Get (Clientset := clientset);
     workqueue_Done := workqueue_Done (Clientset := clientset);
     workqueue_Forget := workqueue_Forget (Clientset := clientset);
     workqueue_AddRateLimited := workqueue_AddRateLimited (Clientset := clientset);
     recorder_Event := recorder_Event (Clientset := clientset) |}.

Definition cluster_timing_out : World :=
  world (enqueueElaService svc_a (set_faults (fail_on (OpCreate KService) timeout) cluster)).

End Fake.

(** ** The worker pool

    Modelled from the spec: the pool of sections 4.2 and 5, a fixed set of
    workers that each loop [Get], process, [Done] on the one shared queue,
    interleaved with the notifications of the watch.  A notification stores
    the new state of the resource in the informer cache and enqueues its key
    (as [enqueueElaService] does); a worker that finishes calls [Forget]
    first when its sync succeeded (as [processNextWorkItem] does: its calls
    to the queue are [Get], then [Forget] on success only, then [Done]).
    The queue operations are atomic, so a run of the pool is a sequence of
    such steps. *)
Module Pool.

Record t := {
  wq : Workqueue.t;
  (** the item each busy worker is between [Get] and [Done] on *)
  busy : gmap nat QItem;
  (** the informer cache, by key *)
  cache : gmap string ElaService
}.

Definition init : t := {| wq := Workqueue.empty; busy := ∅; cache := ∅ |}.

Definition notify (key : string) (es : ElaService) (S : t) : t :=
  {| wq := Workqueue.AddRateLimited (QString key) (wq S);
     busy := busy S;
     cache := <[key := es]> (cache S) |}.

Definition take (w : nat) (S : t) : option t :=
  match busy S !! w with
  | Some _ => None
  | None =>
      match Workqueue.Get (wq S) with
      | None => None
      | Some (item, q) =>
          Some {| wq := q; busy := <[w := item]> (busy S); cache := cache S |}
      end
  end.

Definition finish (w : nat) (forget : bool) (S : t) : option t :=
  match busy S !! w with
  | None => None
  | Some item =>
      Some {| wq := Workqueue.Done item
                      (if forget then Workqueue.Forget item (wq S) else wq S);
              busy := delete w (busy S);
              cache := cache S |}
  end.

Inductive step : t → t → Prop :=
| step_notify key es S : step S (notify key es S)
| step_take w S S' : take w S = Some S' → step S S'
| step_finish w forget S S' : finish w forget S = Some S' → step S S'.

Definition reachable (S : t) : Prop := rtc step init S.

(** What holds of every state the pool can reach: the pending items are
    distinct, marked dirty and not in flight; an item a worker is busy with
    is in flight; and no two workers are busy with the same item. *)
Definition invariant (S : t) : Prop :=
  NoDup (Workqueue.queue (wq S)) ∧
  (∀ item, item ∈ Workqueue.queue (wq S) →
     item ∈ Workqueue.dirty (wq S) ∧ item ∉ Workqueue.processing (wq S)) ∧
  (∀ w item, busy S !! w = Some item → item ∈ Workqueue.processing (wq S)) ∧
  (∀ w1 w2 item, busy S !! w1 = Some item → busy S !! w2 = Some item → w1 = w2).

(** A pool in which worker 0 is busy with the key of a resource. *)
Definition busy_pool (key : string) (es : ElaService) : t :=
  default init (take 0 (notify key es init)).

(** The state of the resource a sync of [item] reads from the cache. *)
Definition observes (S : t) (item : QItem) : option ElaService :=
  match item with
  | QString key => cache S !! key
  | QOther _ => None
  end.

End Pool.

(** * Properties of the controller *)

Section ControllerFacts.
Context `{Makers} {W : Type} `{!Clientset W}.

(** ** The run of a sequence *)

Lemma outcome_ext {A} (r1 r2 : Outcome W A) :
  value r1 = value r2 → world r1 = world r2 → trace r1 = trace r2 → r1 = r2.
Proof. destruct r1, r2. cbn. by intros -> -> ->. Qed.

Lemma bind_value {A B} (m : M W A) (k : A → M W B) w :
  value (bind m k w) = value (k (value (m w)) (world (m w))).
Proof. reflexivity. Qed.

Lemma bind_world {A B} (m : M W A) (k : A → M W B) w :
  world (bind m k w) = world (k (value (m w)) (world (m w))).
Proof. reflexivity. Qed.

Lemma bind_trace {A B} (m : M W A) (k : A → M W B) w :
  trace (bind m k w) = trace (m w) ++ trace (k (value (m w)) (world (m w))).
Proof. reflexivity. Qed.

(** ** Route resolution refines its specification *)

Lemma getRouteForTrafficTarget_refines tt_ ns w :
  world (getRouteForTrafficTarget tt_ ns w) = (spec_resolve ns tt_ w).2 ∧
  value (getRouteForTrafficTarget tt_ ns w) =
    match (spec_resolve ns tt_ w).1 with
    | Reply rev => (route_of ns tt_ rev, None)
    | Fail err => (zeroRoute, Some err)
    end.
Proof.
  unfold getRouteForTrafficTarget, spec_resolve, route_of.
  destruct (bool_decide (RevisionTemplate tt_ ≠ "")).
  - cbn. destruct (Get (RevisionTemplates ns) (RevisionTemplate tt_) w) as [[rt|err] w1] eqn:E.
    + cbn. destruct (Get (Revisions ns) (rt_Latest rt) w1) as [[rev|err] w2]; cbn; auto.
    + cbn. auto.
  - cbn. destruct (Get (Revisions ns) (Revision tt_) w) as [[rev|err] w2]; cbn; auto.
Qed.

Lemma spec_resolve_all_length ns tts w revs w' :
  spec_resolve_all ns tts w = (Reply revs, w') → length revs = length tts.
Proof.
  revert w revs w'. induction tts as [|tt_ tts IH]; intros w revs w'; cbn.
  - intros [= <- _]. reflexivity.
  - destruct (spec_resolve ns tt_ w) as [[rev|err] w1]; [|discriminate].
    destruct (spec_resolve_all ns tts w1) as [[revs'|err] w2] eqn:E; [|discriminate].
    intros [= <- <-]. cbn. f_equal. by eapply IH.
Qed.

Lemma getRoutes_loop_refines ns tts acc w :
  world (getRoutes_loop ns tts acc w) = (spec_resolve_all ns tts w).2 ∧
  value (getRoutes_loop ns tts acc w) =
    match (spec_resolve_all ns tts w).1 with
    | Reply revs => (acc ++ zip_with (route_of ns) tts revs, None)
    | Fail err => ([], Some err)
    end.
Proof.
  revert acc w. induction tts as [|tt_ tts IH]; intros acc w.
  - cbn. rewrite app_nil_r. auto.
  - cbn [getRoutes_loop spec_resolve_all].
    rewrite bind_world, bind_value.
    destruct (getRouteForTrafficTarget_refines tt_ ns w) as [Hw Hv].
    rewrite Hv, Hw.
    destruct (spec_resolve ns tt_ w) as [[rev|err] w1]; cbn [fst snd].
    + destruct (IH (acc ++ [route_of ns tt_ rev]) w1) as [IHw IHv].
      rewrite IHw, IHv.
      destruct (spec_resolve_all ns tts w1) as [[revs|err] w2]; cbn [fst snd]; [|auto].
      split; [reflexivity|]. cbn. by rewrite <- app_assoc.
    + cbn. auto.
Qed.

Lemma getRoutes_refines u w :
  world (getRoutes u w) = (spec_resolve_all (es_Namespace u) (es_Traffic u) w).2 ∧
  value (getRoutes u w) =
    match (spec_resolve_all (es_Namespace u) (es_Traffic u) w).1 with
    | Reply revs => (zip_with (route_of (es_Namespace u)) (es_Traffic u) revs, None)
    | Fail err => ([], Some err)
    end.
Proof.
  unfold getRoutes. rewrite bind_world, bind_value. cbn [Printf emit call_ call value world fst snd id].
  apply (getRoutes_loop_refines (es_Namespace u) (es_Traffic u) [] w).
Qed.

(** ** What the controller can emit *)

Lemma emits_ret {A} P (a : A) : emits P (ret (W:=W) a).
Proof. intros w. constructor. Qed.

Lemma emits_bind {A B} P (m : M W A) (k : A → M W B) :
  emits P m → (∀ a, emits P (k a)) → emits P (bind m k).
Proof.
  intros Hm Hk w. rewrite bind_trace. apply Forall_app. split; [apply Hm|apply Hk].
Qed.

Lemma emits_call {A} (P : Event → Prop) ev (f : W → A * W) :
  P ev → emits P (call ev f).
Proof. intros HP w. cbn. by constructor. Qed.

Lemma emits_call_ (P : Event → Prop) ev (f : W → W) :
  P ev → emits P (call_ ev f).
Proof. apply emits_call. Qed.

Lemma emits_Printf (P : Event → Prop) format args :
  P (LogPrintf format args) → emits P (Printf (W:=W) format args).
Proof. apply emits_call. Qed.

Lemma emits_Infof (P : Event → Prop) format args :
  P (GlogInfof format args) → emits P (Infof (W:=W) format args).
Proof. apply emits_call. Qed.

Lemma emits_HandleError (P : Event → Prop) err :
  P (HandleError err) → emits P (runtime_HandleError (W:=W) err).
Proof. apply emits_call. Qed.

(** One step of a proof that a piece of the controller emits only [P]:
    split a sequence, settle a call by computing [P] on its event, or take
    the branches of a test apart. *)
Ltac emits_step :=
  lazymatch goal with
  | |- emits _ (bind _ _) => apply emits_bind; [|intros ?]
  | |- emits _ (ret _) => apply emits_ret
  | |- emits _ (Printf _ _) => apply emits_Printf
  | |- emits _ (Infof _ _) => apply emits_Infof
  | |- emits _ (runtime_HandleError _) => apply emits_HandleError
  | |- emits _ (call_ _ _) => apply emits_call_
  | |- emits _ (call _ _) => apply emits_call
  | |- emits _ (match ?x with _ => _ end) => destruct x
  | |- emits _ (let _ := _ in _) => cbv zeta
  end.

Lemma getRouteForTrafficTarget_emits tt_ ns :
  emits resolver_event (getRouteForTrafficTarget tt_ ns).
Proof. unfold getRouteForTrafficTarget. repeat emits_step; exact I. Qed.

Lemma getRoutes_loop_emits ns tts acc :
  emits resolver_event (getRoutes_loop ns tts acc).
Proof.
  revert acc. induction tts as [|tt_ tts IH]; intros acc; cbn [getRoutes_loop].
  - apply emits_ret.
  - apply emits_bind; [apply getRouteForTrafficTarget_emits|].
    intros [rr [err|]]; [|apply IH]. repeat emits_step; exact I.
Qed.

Lemma getRoutes_emits u : emits resolver_event (getRoutes u).
Proof.
  unfold getRoutes. apply emits_bind; [by apply emits_Printf|].
  intros _. apply getRoutes_loop_emits.
Qed.

Lemma logRoutes_emits (P : Event → Prop) routes :
  (∀ format args, P (LogPrintf format args)) → emits P (logRoutes (W:=W) routes).
Proof.
  intros HP. induction routes as [|r routes IH]; cbn [logRoutes].
  - apply emits_ret.
  - apply emits_bind; [by apply emits_Printf|]. by intros _.
Qed.

Lemma logRoutes_world routes (w : W) : world (logRoutes routes w) = w.
Proof.
  revert w. induction routes as [|r routes IH]; intros w; [done|].
  cbn [logRoutes]. rewrite bind_world. cbn. apply IH.
Qed.

Lemma emits_weaken {A} (P Q : Event → Prop) (m : M W A) :
  (∀ ev, P ev → Q ev) → emits P m → emits Q m.
Proof. intros HPQ Hm w. eapply Forall_impl; [apply Hm|done]. Qed.

Lemma resolver_event_sync ev : resolver_event ev → sync_event ev.
Proof. destruct ev as [[] ? ?| | | | | | | | | | | |]; cbn; tauto. Qed.

Lemma createPlaceholderService_emits u ns :
  emits sync_event (createPlaceholderService u ns).
Proof. unfold createPlaceholderService. repeat emits_step; exact I. Qed.

Lemma createOrUpdateIngress_emits es ns :
  emits sync_event (createOrUpdateIngress es ns).
Proof. unfold createOrUpdateIngress. repeat emits_step; exact I. Qed.

Lemma createOrUpdateRoutes_emits u ns :
  emits sync_event (createOrUpdateRoutes u ns).
Proof.
  unfold createOrUpdateRoutes. destruct (RouteRules ns) as [routeClient|].
  - apply emits_bind.
    { eapply emits_weaken; [apply resolver_event_sync|apply getRoutes_emits]. }
    intros [routes [err|]]; [repeat emits_step; exact I|].
    destruct (length routes =? 0)%nat; [repeat emits_step; exact I|].
    apply emits_bind; [by apply logRoutes_emits|].
    intros _. repeat emits_step; exact I.
  - repeat emits_step; exact I.
Qed.

Lemma syncHandler_emits key : emits sync_event (syncHandler key).
Proof.
  unfold syncHandler.
  destruct (SplitMetaNamespaceKey key) as [[namespace name] [err|]];
    [repeat emits_step; exact I|].
  apply emits_bind; [by apply emits_call|].
  intros [es|err]; [|repeat emits_step; exact I].
  apply emits_bind; [by apply emits_Infof|]. intros _.
  apply emits_bind; [by apply emits_Printf|]. intros _.
  apply emits_bind; [apply createPlaceholderService_emits|].
  intros [err|]; [apply emits_ret|].
  apply emits_bind; [by apply emits_Printf|]. intros _.
  apply emits_bind; [apply createOrUpdateIngress_emits|].
  intros err. destruct (fatal_unless IsAlreadyExists err); [repeat emits_step; exact I|].
  apply emits_bind; [by apply emits_Printf|]. intros _.
  apply emits_bind; [apply createOrUpdateRoutes_emits|].
  intros [err'|]; repeat emits_step; exact I.
Qed.

(** C3.  When every traffic target of the rollout resolves, [getRoutes]
    returns no error and one route per target, in the order of the targets;
    the weight of each route is the [Percent] of its target, unchanged, and
    its service is the [ServiceName] of the revision the target resolved to,
    followed by a dot and the namespace-scoped suffix.  In particular the
    90/10 split over [rev-1] and [rev-2] with services [rev-1-svc] and
    [rev-2-svc] yields exactly the two routes of the scenario. *)
Theorem C3_getRoutes_weights_and_services u w revs w' :
  spec_resolve_all (es_Namespace u) (es_Traffic u) w = (Reply revs, w') →
  let routes := (value (getRoutes u w)).1 in
  let suffix := GetElaNamespaceName (es_Namespace u) in
  (value (getRoutes u w)).2 = None ∧
  length routes = length (es_Traffic u) ∧
  Weight <$> routes = Percent <$> es_Traffic u ∧
  Service <$> routes = (λ rev, rev_ServiceName rev +:+ "." +:+ suffix) <$> revs ∧
  (∀ i tt_, es_Traffic u !! i = Some tt_ →
     ∃ rev, revs !! i = Some rev ∧
            routes !! i = Some {| Service := rev_ServiceName rev +:+ "." +:+ suffix;
                                  Weight := Percent tt_ |}) ∧
  (es_Traffic u = [ {| Revision := "rev-1"; RevisionTemplate := ""; Percent := 90 |};
                    {| Revision := "rev-2"; RevisionTemplate := ""; Percent := 10 |} ] →
   rev_ServiceName <$> revs = ["rev-1-svc"; "rev-2-svc"] →
   routes = [ {| Service := "rev-1-svc." +:+ suffix; Weight := 90 |};
              {| Service := "rev-2-svc." +:+ suffix; Weight := 10 |} ]).
Proof.
  intros Hres routes suffix.
  pose proof (spec_resolve_all_length _ _ _ _ _ Hres) as Hlen.
  destruct (getRoutes_refines u w) as [_ Hv]. rewrite Hres in Hv. cbn [fst] in Hv.
  assert (Hroutes : routes = zip_with (route_of (es_Namespace u)) (es_Traffic u) revs)
    by (unfold routes; by rewrite Hv).
  clearbody routes. subst routes.
  split; [by rewrite Hv|].
  split; [rewrite length_zip_with; lia|].
  split.
  { clear Hres Hv. revert revs Hlen.
    induction (es_Traffic u) as [|t ts IH]; intros [|r rs] Hl; try discriminate; [done|].
    cbn. f_equal. apply IH. by injection Hl. }
  split.
  { clear Hres Hv. revert revs Hlen.
    induction (es_Traffic u) as [|t ts IH]; intros [|r rs] Hl; try discriminate; [done|].
    cbn. f_equal. apply IH. by injection Hl. }
  split.
  { intros i tt_ Hi.
    destruct (revs !! i) as [rev|] eqn:Hr.
    - exists rev. split; [done|]. rewrite lookup_zip_with, Hi. cbn. by rewrite Hr.
    - apply lookup_ge_None in Hr. apply lookup_lt_Some in Hi. lia. }
  intros Ht Hs. rewrite Ht in *.
  destruct revs as [|r1 [|r2 [|? ?]]]; try discriminate.
  cbn in Hs. injection Hs as Hs1 Hs2. cbn. unfold route_of. cbn.
  by rewrite Hs1, Hs2.
Qed.

(** ** A target that does not resolve *)

Lemma spec_resolve_all_first_failure ns pre tt_ post revs err (w w1 w2 : W) :
  spec_resolve_all ns pre w = (Reply revs, w1) →
  spec_resolve ns tt_ w1 = (Fail err, w2) →
  spec_resolve_all ns (pre ++ tt_ :: post) w = (Fail err, w2).
Proof.
  revert w revs. induction pre as [|p pre IH]; intros w revs; cbn.
  - intros [= _ <-] ->. reflexivity.
  - destruct (spec_resolve ns p w) as [[rev|e] wa]; [|discriminate].
    destruct (spec_resolve_all ns pre wa) as [[revs'|e] wb] eqn:E; [|discriminate].
    intros [= _ <-] Hf. by rewrite (IH wa revs' E Hf).
Qed.

Lemma createOrUpdateRoutes_resolution_error u ns rc err (w : W) :
  RouteRules ns = Some rc →
  (value (getRoutes u w)).2 = Some err →
  value (createOrUpdateRoutes u ns w) = Some err ∧
  world (createOrUpdateRoutes u ns w) = world (getRoutes u w) ∧
  trace (createOrUpdateRoutes u ns w) =
    trace (getRoutes u w) ++
    [LogPrintf "Failed to get routes for %s : %q" [ArgS (es_Name u); ArgErr err]].
Proof.
  intros Hrc Herr. unfold createOrUpdateRoutes. rewrite Hrc.
  rewrite bind_value, bind_world, bind_trace.
  destruct (value (getRoutes u w)) as [routes [e|]]; cbn in Herr; [|discriminate].
  injection Herr as ->. cbn. auto.
Qed.

(** ** The course of a reconciliation *)

Lemma syncHandler_service_step key ns name es err (w0 wa : W) :
  SplitMetaNamespaceKey key = (ns, name, None) →
  lister_Get ns name w0 = (Reply es, wa) →
  value (createPlaceholderService es ns wa) = Some err →
  value (syncHandler key w0) = Some err ∧
  world (syncHandler key w0) = world (createPlaceholderService es ns wa) ∧
  trace (syncHandler key w0) =
    sync_prologue ns name es ++ trace (createPlaceholderService es ns wa).
Proof.
  intros Hsplit Hget Hsvc. unfold syncHandler. rewrite Hsplit.
  rewrite !bind_value, !bind_world, !bind_trace. cbn [call value world trace].
  rewrite Hget. cbn [fst snd Infof Printf emit call_ call value world trace id].
  rewrite !bind_value, !bind_world, !bind_trace.
  cbn [fst snd Infof Printf emit call_ call value world trace id].
  rewrite Hsvc. cbn. by rewrite app_nil_r.
Qed.

Ltac sync_simpl :=
  repeat progress
    (rewrite ?bind_value, ?bind_world, ?bind_trace;
     cbn [fst snd Infof Printf emit call_ call ret value world trace id
          runtime_HandleError]).

Lemma syncHandler_ingress_step key ns name es err (w0 wa : W) :
  SplitMetaNamespaceKey key = (ns, name, None) →
  lister_Get ns name w0 = (Reply es, wa) →
  let svc := createPlaceholderService es ns wa in
  value svc = None →
  let ing := createOrUpdateIngress es ns (world svc) in
  fatal_unless IsAlreadyExists (value ing) = Some err →
  value (syncHandler key w0) = Some err ∧
  world (syncHandler key w0) = world ing ∧
  trace (syncHandler key w0) =
    sync_prologue ns name es ++ trace svc ++
    [LogPrintf "Creating or updating ingress rule" []] ++ trace ing ++
    [LogPrintf "Failed to create ingress rule: %s" [ArgErr err]].
Proof.
  intros Hsplit Hget svc Hsvc ing Hing. unfold syncHandler. rewrite Hsplit.
  sync_simpl. rewrite Hget. sync_simpl. fold svc. rewrite Hsvc.
  sync_simpl. fold ing. rewrite Hing. sync_simpl.
  cbn. by rewrite ?app_nil_r, <- ?app_assoc.
Qed.

Lemma syncHandler_routes_step key ns name es (w0 wa : W) :
  SplitMetaNamespaceKey key = (ns, name, None) →
  lister_Get ns name w0 = (Reply es, wa) →
  let svc := createPlaceholderService es ns wa in
  value svc = None →
  let ing := createOrUpdateIngress es ns (world svc) in
  fatal_unless IsAlreadyExists (value ing) = None →
  let rts := createOrUpdateRoutes es ns (world ing) in
  value (syncHandler key w0) = value rts ∧
  world (syncHandler key w0) =
    match value rts with
    | Some _ => world rts
    | None => recorder_Event es EventTypeNormal SuccessSynced MessageResourceSynced (world rts)
    end ∧
  trace (syncHandler key w0) =
    sync_prologue ns name es ++ trace svc ++
    [LogPrintf "Creating or updating ingress rule" []] ++ trace ing ++
    [LogPrintf "Creating istio route rules" []] ++ trace rts ++
    match value rts with
    | Some err => [LogPrintf "Failed to create Routes: %s" [ArgErr err]]
    | None => [RecorderEvent es EventTypeNormal SuccessSynced MessageResourceSynced]
    end.
Proof.
  intros Hsplit Hget svc Hsvc ing Hing rts. unfold syncHandler. rewrite Hsplit.
  sync_simpl. rewrite Hget. sync_simpl. fold svc. rewrite Hsvc.
  sync_simpl. fold ing. rewrite Hing. sync_simpl. fold rts.
  destruct (value rts) as [err|]; cbn; by rewrite ?app_nil_r, <- ?app_assoc.
Qed.

(** ** The course of a work item *)

Lemma processNextWorkItem_key key (w w0 : W) :
  workqueue_Get w = ((QString key, false), w0) →
  let sync := syncHandler key w0 in
  value (processNextWorkItem w) = true ∧
  world (processNextWorkItem w) =
    match value sync with
    | Some _ => workqueue_Done (QString key) (world sync)
    | None => workqueue_Done (QString key) (workqueue_Forget (QString key) (world sync))
    end ∧
  trace (processNextWorkItem w) =
    [QueueGet] ++ trace sync ++
    match value sync with
    | Some err =>
        [QueueDone (QString key);
         HandleError (ErrorString ("error syncing '" +:+ key +:+ "': " +:+ Error err))]
    | None =>
        [QueueForget (QString key);
         GlogInfof "Successfully synced '%s'" [ArgS key];
         QueueDone (QString key)]
    end.
Proof.
  intros Hget sync. unfold processNextWorkItem.
  sync_simpl. rewrite Hget. sync_simpl. fold sync.
  destruct (value sync) as [err|]; sync_simpl; cbn;
    by rewrite ?app_nil_r, <- ?app_assoc.
Qed.

Lemma queue_calls_app evs1 evs2 :
  queue_calls (evs1 ++ evs2) = queue_calls evs1 ++ queue_calls evs2.
Proof. apply List.filter_app. Qed.

Lemma queue_calls_none evs :
  Forall sync_event evs → queue_calls evs = [].
Proof.
  unfold queue_calls. induction 1 as [|ev evs Hev _ IH]; [done|].
  cbn [List.filter]. rewrite IH. by destruct ev.
Qed.

(** The calls a worker makes to the queue for one string key: [Get], then
    [Forget] only if the sync succeeded, then [Done]. *)
Lemma processNextWorkItem_queue_calls key (w w0 : W) :
  workqueue_Get w = ((QString key, false), w0) →
  queue_calls (trace (processNextWorkItem w)) =
    match value (syncHandler key w0) with
    | Some _ => [QueueGet; QueueDone (QString key)]
    | None => [QueueGet; QueueForget (QString key); QueueDone (QString key)]
    end.
Proof.
  intros Hget. destruct (processNextWorkItem_key key w w0 Hget) as (_ & _ & ->).
  rewrite !queue_calls_app, (queue_calls_none _ (syncHandler_emits key w0)).
  by destruct (value (syncHandler key w0)).
Qed.

(** If a traffic target of the rollout does not resolve (the fetch of its
    template or of its revision returns an error) after the targets before
    it did, [getRoutes] returns that error and no route at all;
    [createOrUpdateRoutes] returns the error without writing anything; and a
    reconciliation that reaches the route step returns the error to the
    worker, which logs it and does not call [Forget]. *)
Lemma unresolved_target_fails_whole_sync
    u pre tt_ post revs err (w w1 w2 : W) :
  es_Traffic u = pre ++ tt_ :: post →
  spec_resolve_all (es_Namespace u) pre w = (Reply revs, w1) →
  spec_resolve (es_Namespace u) tt_ w1 = (Fail err, w2) →
  value (getRoutes u w) = ([], Some err) ∧
  world (getRoutes u w) = w2 ∧
  (∀ ns rc, RouteRules ns = Some rc →
     value (createOrUpdateRoutes u ns w) = Some err ∧
     world (createOrUpdateRoutes u ns w) = w2 ∧
     Forall (λ ev, is_write ev = false) (trace (createOrUpdateRoutes u ns w))) ∧
  (∀ key ns name rc w0 wa,
     SplitMetaNamespaceKey key = (ns, name, None) →
     RouteRules ns = Some rc →
     lister_Get ns name w0 = (Reply u, wa) →
     let svc := createPlaceholderService u ns wa in
     value svc = None →
     let ing := createOrUpdateIngress u ns (world svc) in
     fatal_unless IsAlreadyExists (value ing) = None →
     world ing = w →
     value (syncHandler key w0) = Some err ∧
     world (syncHandler key w0) = w2 ∧
     (∀ wq0, workqueue_Get wq0 = ((QString key, false), w0) →
        value (processNextWorkItem wq0) = true ∧
        HandleError (ErrorString ("error syncing '" +:+ key +:+ "': " +:+ Error err))
          ∈ trace (processNextWorkItem wq0) ∧
        QueueForget (QString key) ∉ trace (processNextWorkItem wq0))).
Proof.
  intros Ht Hpre Hfail.
  pose proof (spec_resolve_all_first_failure _ _ _ post _ _ _ _ _ Hpre Hfail) as Hall.
  rewrite <- Ht in Hall.
  destruct (getRoutes_refines u w) as [Hw Hv]. rewrite Hall in Hw, Hv. cbn [fst snd] in Hw, Hv.
  assert (Hroutes : ∀ ns rc, RouteRules ns = Some rc →
     value (createOrUpdateRoutes u ns w) = Some err ∧
     world (createOrUpdateRoutes u ns w) = w2 ∧
     Forall (λ ev, is_write ev = false) (trace (createOrUpdateRoutes u ns w))).
  { intros ns rc Hrc.
    destruct (createOrUpdateRoutes_resolution_error u ns rc err w Hrc) as (Hv' & Hw' & Ht');
      [by rewrite Hv|].
    split; [done|]. split; [by rewrite Hw'|].
    rewrite Ht'. apply Forall_app. split; [|by repeat constructor].
    eapply Forall_impl; [apply getRoutes_emits|]. intros ev. by destruct ev as [[] ? ?| | | | | | | | | | | |]. }
  split; [done|]. split; [done|]. split; [done|].
  intros key ns name rc w0 wa Hsplit Hrc Hget svc Hsvc ing Hing Hwing.
  destruct (syncHandler_routes_step key ns name u w0 wa Hsplit Hget Hsvc Hing)
    as (Hsv & Hsw & Hst).
  fold svc ing in Hsv, Hsw, Hst. rewrite Hwing in Hsv, Hsw, Hst.
  destruct (Hroutes ns rc Hrc) as (Hrv & Hrw & _).
  rewrite Hrv in Hsv, Hsw, Hst.
  split; [done|]. split; [by rewrite Hsw|].
  intros wq0 Hq.
  destruct (processNextWorkItem_key key wq0 w0 Hq) as (Hpv & _ & Hpt).
  rewrite Hsv in Hpt. split; [done|]. rewrite Hpt. split.
  - rewrite !elem_of_app. right. right. apply list_elem_of_In. cbn. auto.
  - rewrite !not_elem_of_app. split; [by intros ?%list_elem_of_singleton|].
    split.
    + intros Hin. pose proof (syncHandler_emits key w0) as Hem.
      rewrite Forall_forall in Hem. by apply Hem in Hin.
    + intros Hin. apply list_elem_of_In in Hin. cbn in Hin.
      destruct Hin as [?|[?|[]]]; discriminate.
Qed.

(** C6.  When the lookup of the resource reports not-found, [syncHandler]
    logs that the resource no longer exists and returns nil without touching
    anything else, and the worker then calls [Forget] and [Done] and never
    re-queues the key; any other lookup error is returned as it is. *)
Theorem C6_deleted_resource_is_success key ns name err (w w1 : W) :
  SplitMetaNamespaceKey key = (ns, name, None) →
  lister_Get ns name w = (Fail err, w1) →
  (IsNotFound err = true →
     syncHandler key w =
       {| value := None; world := w1;
          trace := [ListerGet ns name;
                    HandleError (ErrorString
                      ("elaservice '" +:+ key +:+ "' in work queue no longer exists"))] |} ∧
     ∀ wq0, workqueue_Get wq0 = ((QString key, false), w) →
       queue_calls (trace (processNextWorkItem wq0)) =
         [QueueGet; QueueForget (QString key); QueueDone (QString key)]) ∧
  (IsNotFound err = false →
     syncHandler key w = {| value := Some err; world := w1; trace := [ListerGet ns name] |}).
Proof.
  intros Hsplit Hget.
  assert (Hsync : syncHandler key w =
    if IsNotFound err then
      {| value := None; world := w1;
         trace := [ListerGet ns name;
                   HandleError (ErrorString
                     ("elaservice '" +:+ key +:+ "' in work queue no longer exists"))] |}
    else {| value := Some err; world := w1; trace := [ListerGet ns name] |}).
  { unfold syncHandler. rewrite Hsplit. unfold bind at 1. cbn [call value world trace].
    rewrite Hget. cbn [fst snd]. by destruct (IsNotFound err). }
  split; intros Hnf; rewrite Hnf in Hsync; [split|]; try done.
  intros wq0 Hq. rewrite (processNextWorkItem_queue_calls key wq0 w Hq).
  by rewrite Hsync.
Qed.

(** ** The placeholder service and the ingress *)

Lemma createPlaceholderService_outcome u ns (w : W) :
  let service := svc_appendOwner (MakeElaServiceK8SService u) (NewControllerRef u) in
  let r := Create (Services ns) service w in
  value (createPlaceholderService u ns w) = fatal_unless IsAlreadyExists (err_of r.1) ∧
  world (createPlaceholderService u ns w) = r.2 ∧
  List.filter is_write (trace (createPlaceholderService u ns w)) =
    [ApiCreate ns (OService service)].
Proof.
  intros service r. unfold createPlaceholderService. fold service.
  sync_simpl. fold r. destruct r.1 as [o|err]; cbn [err_of fatal_unless].
  - sync_simpl. auto.
  - destruct (IsAlreadyExists err); cbn [negb]; sync_simpl; auto.
Qed.

Lemma createOrUpdateIngress_found es ns o (w w1 : W) :
  Get (Ingresses ns) (GetElaK8SIngressName es) w = (Reply o, w1) →
  createOrUpdateIngress es ns w =
    {| value := None; world := w1;
       trace := [ApiGet KIngress ns (GetElaK8SIngressName es)] |}.
Proof.
  intros Hget. unfold createOrUpdateIngress, bind. cbn [call value world trace].
  rewrite Hget. reflexivity.
Qed.

Lemma createOrUpdateIngress_get_error es ns err (w w1 : W) :
  Get (Ingresses ns) (GetElaK8SIngressName es) w = (Fail err, w1) →
  IsNotFound err = false →
  createOrUpdateIngress es ns w =
    {| value := Some err; world := w1;
       trace := [ApiGet KIngress ns (GetElaK8SIngressName es)] |}.
Proof.
  intros Hget Hnf. unfold createOrUpdateIngress, bind. cbn [call value world trace].
  rewrite Hget. cbn [fst snd err_of]. rewrite Hnf. reflexivity.
Qed.

Lemma createOrUpdateIngress_absent es ns err (w w1 : W) :
  Get (Ingresses ns) (GetElaK8SIngressName es) w = (Fail err, w1) →
  IsNotFound err = true →
  let ingress := ing_appendOwner (MakeElaServiceIngress es ns) (NewControllerRef es) in
  let r := Create (Ingresses ns) ingress w1 in
  createOrUpdateIngress es ns w =
    {| value := err_of r.1; world := r.2;
       trace := [ApiGet KIngress ns (GetElaK8SIngressName es);
                 ApiCreate ns (OIngress ingress);
                 LogPrintf "Created ingress %q" [ArgS (ing_Name ingress)]] |}.
Proof.
  intros Hget Hnf ingress r. unfold createOrUpdateIngress, bind.
  cbn [call value world trace]. rewrite Hget. cbn [fst snd err_of]. rewrite Hnf.
  reflexivity.
Qed.

Lemma sync_event_no_overwrite ev :
  sync_event ev →
  is_update_of KService ev = false ∧ is_update_of KIngress ev = false ∧
  is_delete ev = false ∧ is_queue_call ev = false.
Proof. destruct ev as [| |? []| | | | | | | | | |]; cbn; tauto. Qed.

(** C7.  An already-exists error from the creation of the placeholder
    service or of the ingress does not abort the reconciliation: the
    remaining steps run and alone decide its result.  Any other error of
    these creations is returned at once, with nothing done after it.  No
    run of the reconciler sends an update for a service or an ingress, so
    the object that already exists is not overwritten. *)
Theorem C7_already_exists_is_tolerated key ns name u (w0 w : W) :
  SplitMetaNamespaceKey key = (ns, name, None) →
  lister_Get ns name w0 = (Reply u, w) →
  let service := svc_appendOwner (MakeElaServiceK8SService u) (NewControllerRef u) in
  let ingress := ing_appendOwner (MakeElaServiceIngress u ns) (NewControllerRef u) in
  (∀ err w1, Create (Services ns) service w = (Fail err, w1) →
     if IsAlreadyExists err then
       value (createPlaceholderService u ns w) = None ∧
       let ing := createOrUpdateIngress u ns w1 in
       value (syncHandler key w0) =
         match fatal_unless IsAlreadyExists (value ing) with
         | Some e => Some e
         | None => value (createOrUpdateRoutes u ns (world ing))
         end
     else
       value (createPlaceholderService u ns w) = Some err ∧
       value (syncHandler key w0) = Some err ∧
       world (syncHandler key w0) = w1 ∧
       trace (syncHandler key w0) =
         sync_prologue ns name u ++
         [ApiCreate ns (OService service);
          LogPrintf "Failed to create service: %s" [ArgErr err]]) ∧
  (value (createPlaceholderService u ns w) = None →
   let wa := world (createPlaceholderService u ns w) in
   ∀ e0 wb err wc,
     Get (Ingresses ns) (GetElaK8SIngressName u) wa = (Fail e0, wb) →
     IsNotFound e0 = true →
     Create (Ingresses ns) ingress wb = (Fail err, wc) →
     value (createOrUpdateIngress u ns wa) = Some err ∧
     if IsAlreadyExists err then
       value (syncHandler key w0) = value (createOrUpdateRoutes u ns wc)
     else
       value (syncHandler key w0) = Some err ∧ world (syncHandler key w0) = wc) ∧
  Forall (λ ev, is_update_of KService ev = false ∧ is_update_of KIngress ev = false)
         (trace (syncHandler key w0)).
Proof.
  intros Hsplit Hget service ingress. split; [|split].
  - intros err w1 Hcreate.
    destruct (createPlaceholderService_outcome u ns w) as (Hv & Hw & _).
    fold service in Hv, Hw. rewrite Hcreate in Hv, Hw. cbn [fst snd err_of fatal_unless] in Hv, Hw.
    destruct (IsAlreadyExists err) eqn:Hae; cbn [negb] in Hv.
    + split; [done|]. intros ing.
      destruct (fatal_unless IsAlreadyExists (value ing)) as [e|] eqn:Hing.
      * destruct (syncHandler_ingress_step key ns name u e w0 w Hsplit Hget Hv)
          as (Hs & _); [by rewrite Hw|done].
      * destruct (syncHandler_routes_step key ns name u w0 w Hsplit Hget Hv)
          as (Hs & _); [by rewrite Hw|]. by rewrite Hs, Hw.
    + destruct (syncHandler_service_step key ns name u err w0 w Hsplit Hget Hv)
        as (Hs & Hsw & Hst).
      split; [done|]. split; [done|]. split; [by rewrite Hsw|].
      rewrite Hst. f_equal. unfold createPlaceholderService. fold service.
      sync_simpl. rewrite Hcreate. cbn [fst snd err_of]. rewrite Hae. reflexivity.
  - intros Hsvc wa e0 wb err wc Hig Hnf Hic.
    pose proof (createOrUpdateIngress_absent u ns e0 wa wb Hig Hnf) as Hing.
    cbv zeta in Hing. fold ingress in Hing. rewrite Hic in Hing. cbn [fst snd err_of] in Hing.
    split; [by rewrite Hing|].
    destruct (IsAlreadyExists err) eqn:Hae.
    + destruct (syncHandler_routes_step key ns name u w0 w Hsplit Hget Hsvc) as (Hs & _).
      { fold wa. rewrite Hing. cbn. by rewrite Hae. }
      rewrite Hs. fold wa. by rewrite Hing.
    + destruct (syncHandler_ingress_step key ns name u err w0 w Hsplit Hget Hsvc)
        as (Hs & Hsw & _).
      { fold wa. rewrite Hing. cbn. by rewrite Hae. }
      split; [done|]. rewrite Hsw. fold wa. by rewrite Hing.
  - eapply Forall_impl; [apply syncHandler_emits|].
    intros ev Hev. by destruct (sync_event_no_overwrite ev Hev) as (? & ? & _).
Qed.

(** ** The route rules *)

Lemma filter_none (P : Event → bool) evs :
  Forall (λ ev, P ev = false) evs → List.filter P evs = [].
Proof. induction 1 as [|ev evs Hev _ IH]; [done|]. cbn. by rewrite Hev. Qed.

Lemma getRoutes_writes_nothing u (w : W) :
  Forall (λ ev, is_write ev = false) (trace (getRoutes u w)).
Proof.
  eapply Forall_impl; [apply getRoutes_emits|].
  intros ev. by destruct ev as [[] ? ?| | | | | | | | | | | |].
Qed.

Lemma logRoutes_writes_nothing routes (w : W) :
  Forall (λ ev, is_write ev = false) (trace (logRoutes routes w)).
Proof. by apply (logRoutes_emits (λ ev, is_write ev = false)). Qed.

Lemma createOrUpdateRoutes_nonempty u ns rc routes (w : W) :
  RouteRules ns = Some rc →
  value (getRoutes u w) = (routes, None) →
  routes ≠ [] →
  let w1 := world (getRoutes u w) in
  let name := GetElaIstioRouteRuleName u in
  let reads := trace (getRoutes u w) ++ trace (logRoutes routes w1) ++
               [ApiGet KRouteRule ns name] in
  createOrUpdateRoutes u ns w =
    match Get rc name w1 with
    | (Reply existing, w2) =>
        let routeRules := set_Spec existing (MakeElaServiceIstioSpec u ns routes) in
        let c := Update rc routeRules w2 in
        {| value := err_of c.1; world := c.2;
           trace := reads ++ [ApiUpdate ns (ORouteRule routeRules)] |}
    | (Fail err, w2) =>
        if IsNotFound err then
          let routeRules := MakeElaServiceIstioRoutes u ns routes in
          let c := Create rc routeRules w2 in
          {| value := err_of c.1; world := c.2;
             trace := reads ++ [ApiCreate ns (ORouteRule routeRules)] |}
        else {| value := Some err; world := w2; trace := reads |}
    end.
Proof.
  intros Hrc Hroutes Hne w1 name reads.
  destruct routes as [|r routes]; [done|].
  destruct (Get rc name w1) as [[existing|err] w2] eqn:Hget;
    [|destruct (IsNotFound err) eqn:Hnf];
    apply outcome_ext; unfold createOrUpdateRoutes; rewrite Hrc;
    sync_simpl; rewrite Hroutes; cbn [length Nat.eqb fst snd]; sync_simpl;
    rewrite ?logRoutes_world; fold w1 name; rewrite Hget; cbn [fst snd];
    rewrite ?Hnf; cbn [negb]; sync_simpl;
    try match goal with |- context [err_of ?c] => destruct (err_of c) end;
    cbn [value world trace ret]; unfold reads;
    by rewrite ?app_nil_r, <- ?app_assoc.
Qed.

(** C5.  When the route rule of the resource is found, [createOrUpdateRoutes]
    sends it back in one update with its spec replaced by the freshly
    computed one and everything else as fetched; when the lookup reports
    not-found it creates the object built from scratch.  In both cases this
    is the only write of the step, and the step returns the error of that
    write. *)
Theorem C5_route_rule_full_replace u ns rc routes (w : W) :
  RouteRules ns = Some rc →
  value (getRoutes u w) = (routes, None) →
  routes ≠ [] →
  let w1 := world (getRoutes u w) in
  let name := GetElaIstioRouteRuleName u in
  let out := createOrUpdateRoutes u ns w in
  (∀ existing w2, Get rc name w1 = (Reply existing, w2) →
     let updated := set_Spec existing (MakeElaServiceIstioSpec u ns routes) in
     rr_Spec updated = MakeElaServiceIstioSpec u ns routes ∧
     rr_Name updated = rr_Name existing ∧
     rr_ResourceVersion updated = rr_ResourceVersion existing ∧
     rr_OwnerReferences updated = rr_OwnerReferences existing ∧
     List.filter is_write (trace out) = [ApiUpdate ns (ORouteRule updated)] ∧
     value out = err_of (Update rc updated w2).1 ∧
     world out = (Update rc updated w2).2) ∧
  (∀ err w2, Get rc name w1 = (Fail err, w2) → IsNotFound err = true →
     let created := MakeElaServiceIstioRoutes u ns routes in
     List.filter is_write (trace out) = [ApiCreate ns (ORouteRule created)] ∧
     value out = err_of (Create rc created w2).1 ∧
     world out = (Create rc created w2).2).
Proof.
  intros Hrc Hroutes Hne w1 name out.
  pose proof (createOrUpdateRoutes_nonempty u ns rc routes w Hrc Hroutes Hne) as Hout.
  cbv zeta in Hout. fold w1 name out in Hout.
  assert (Hreads : List.filter is_write
            (trace (getRoutes u w) ++ trace (logRoutes routes w1) ++
             [ApiGet KRouteRule ns name]) = []).
  { rewrite !List.filter_app,
      (filter_none _ _ (getRoutes_writes_nothing u w)),
      (filter_none _ _ (logRoutes_writes_nothing routes w1)). reflexivity. }
  split.
  - intros existing w2 Hget updated. rewrite Hget in Hout. rewrite Hout.
    cbn [value world trace]. rewrite List.filter_app, Hreads. by repeat split.
  - intros err w2 Hget Hnf created. rewrite Hget, Hnf in Hout. rewrite Hout.
    cbn [value world trace]. rewrite List.filter_app, Hreads. by repeat split.
Qed.

(** C8.  When the resolved list of routes is empty, [createOrUpdateRoutes]
    logs that no routes were found and returns nil; after the resolution it
    makes no call at all, so it neither reads, creates nor updates the route
    rule, and the whole step writes nothing. *)
Theorem C8_empty_routes_skip_the_rule u ns rc (w : W) :
  RouteRules ns = Some rc →
  value (getRoutes u w) = ([], None) →
  createOrUpdateRoutes u ns w =
    {| value := None; world := world (getRoutes u w);
       trace := trace (getRoutes u w) ++
                [LogPrintf "No routes were found for the service %q" [ArgS (es_Name u)]] |} ∧
  Forall (λ ev, is_write ev = false ∧ ∀ name, ev ≠ ApiGet KRouteRule ns name)
         (trace (createOrUpdateRoutes u ns w)).
Proof.
  intros Hrc Hroutes.
  assert (Hout : createOrUpdateRoutes u ns w =
    {| value := None; world := world (getRoutes u w);
       trace := trace (getRoutes u w) ++
                [LogPrintf "No routes were found for the service %q" [ArgS (es_Name u)]] |}).
  { unfold createOrUpdateRoutes. rewrite Hrc. unfold bind at 1. rewrite Hroutes.
    reflexivity. }
  split; [done|]. rewrite Hout. cbn [trace]. apply Forall_app. split.
  - eapply Forall_impl; [apply getRoutes_emits|].
    intros ev. destruct ev as [[] ? ?| | | | | | | | | | | |]; cbn; try tauto; by split.
  - by repeat constructor.
Qed.

(** C2, as amended.  In a reconciliation that finds the resource nothing is
    ever deleted.  The placeholder service is only ever created: its create
    is sent in every such reconciliation and is the only write of the service
    step, an already-exists error from it is tolerated (the step returns nil
    and the reconciliation goes on to look up the ingress), and no update of
    a service is ever sent.  The ingress is created when its lookup reports
    not-found.  The route rule is updated in place, its spec replaced, when
    its lookup finds it, and created when the lookup reports not-found.  When
    no step fails the writes of the reconciliation are those of the three
    steps, in this order. *)
Theorem C2_created_and_only_route_rule_updated key ns name u (w0 w : W) :
  SplitMetaNamespaceKey key = (ns, name, None) →
  lister_Get ns name w0 = (Reply u, w) →
  let service := svc_appendOwner (MakeElaServiceK8SService u) (NewControllerRef u) in
  let ingress := ing_appendOwner (MakeElaServiceIngress u ns) (NewControllerRef u) in
  let svc := createPlaceholderService u ns w in
  let ing := createOrUpdateIngress u ns (world svc) in
  let rts := createOrUpdateRoutes u ns (world ing) in
  Forall (λ ev, is_delete ev = false ∧ is_update_of KService ev = false)
         (trace (syncHandler key w0)) ∧
  List.filter is_write (trace svc) = [ApiCreate ns (OService service)] ∧
  ApiCreate ns (OService service) ∈ trace (syncHandler key w0) ∧
  (∀ err w1, Create (Services ns) service w = (Fail err, w1) →
     IsAlreadyExists err = true →
     value svc = None ∧ world svc = w1 ∧
     ApiGet KIngress ns (GetElaK8SIngressName u) ∈ trace (syncHandler key w0)) ∧
  (∀ e w1, Get (Ingresses ns) (GetElaK8SIngressName u) (world svc) = (Fail e, w1) →
     IsNotFound e = true →
     List.filter is_write (trace ing) = [ApiCreate ns (OIngress ingress)]) ∧
  (∀ rc routes,
     RouteRules ns = Some rc →
     value (getRoutes u (world ing)) = (routes, None) →
     routes ≠ [] →
     match Get rc (GetElaIstioRouteRuleName u) (world (getRoutes u (world ing))) with
     | (Reply existing, _) =>
         List.filter is_write (trace rts) =
           [ApiUpdate ns (ORouteRule
              (set_Spec existing (MakeElaServiceIstioSpec u ns routes)))]
     | (Fail e, _) =>
         IsNotFound e = true →
         List.filter is_write (trace rts) =
           [ApiCreate ns (ORouteRule (MakeElaServiceIstioRoutes u ns routes))]
     end) ∧
  (value svc = None →
   fatal_unless IsAlreadyExists (value ing) = None →
   List.filter is_write (trace (syncHandler key w0)) =
     List.filter is_write (trace svc) ++ List.filter is_write (trace ing) ++
     List.filter is_write (trace rts)).
Proof.
  intros Hsplit Hget service ingress svc ing rts.
  destruct (createPlaceholderService_outcome u ns w) as (Hsv & Hsw & Hswrites).
  fold service svc in Hsv, Hsw, Hswrites.
  assert (Hcreate : ApiCreate ns (OService service) ∈ trace svc).
  { apply list_elem_of_In, (proj1 (List.filter_In is_write _ _)).
    rewrite Hswrites. by left. }
  assert (Hlookup : ApiGet KIngress ns (GetElaK8SIngressName u) ∈ trace ing).
  { unfold ing, createOrUpdateIngress. sync_simpl. apply elem_of_app. left.
    by apply list_elem_of_singleton. }
  split; [|split; [|split; [|split; [|split; [|split]]]]].
  - eapply Forall_impl; [apply syncHandler_emits|].
    intros ev Hev. by destruct (sync_event_no_overwrite ev Hev) as (? & ? & ? & _).
  - done.
  - destruct (value svc) as [err|] eqn:Hsvc.
    + destruct (syncHandler_service_step key ns name u err w0 w Hsplit Hget Hsvc)
        as (_ & _ & ->).
      apply elem_of_app. by right.
    + destruct (fatal_unless IsAlreadyExists (value ing)) as [err|] eqn:Hing.
      * destruct (syncHandler_ingress_step key ns name u err w0 w Hsplit Hget Hsvc Hing)
          as (_ & _ & ->).
        fold svc. rewrite !elem_of_app. right. by left.
      * destruct (syncHandler_routes_step key ns name u w0 w Hsplit Hget Hsvc Hing)
          as (_ & _ & ->).
        fold svc. rewrite !elem_of_app. right. by left.
  - intros err w1 Hc Hae. rewrite Hc in Hsv, Hsw. cbn [fst snd err_of fatal_unless] in Hsv, Hsw.
    rewrite Hae in Hsv. cbn [negb] in Hsv.
    split; [done|]. split; [done|].
    destruct (fatal_unless IsAlreadyExists (value ing)) as [e|] eqn:Hing.
    + destruct (syncHandler_ingress_step key ns name u e w0 w Hsplit Hget Hsv Hing)
        as (_ & _ & ->).
      fold svc ing. rewrite !elem_of_app. right. right. right. by left.
    + destruct (syncHandler_routes_step key ns name u w0 w Hsplit Hget Hsv Hing)
        as (_ & _ & ->).
      fold svc ing. rewrite !elem_of_app. right. right. right. by left.
  - intros e w1 Hig Hnf. unfold ing.
    rewrite (createOrUpdateIngress_absent u ns e _ w1 Hig Hnf). reflexivity.
  - intros rc routes Hrc Hroutes Hne.
    pose proof (createOrUpdateRoutes_nonempty u ns rc routes _ Hrc Hroutes Hne) as Hout.
    cbv zeta in Hout. fold rts in Hout.
    assert (Hreads : List.filter is_write
              (trace (getRoutes u (world ing)) ++
               trace (logRoutes routes (world (getRoutes u (world ing)))) ++
               [ApiGet KRouteRule ns (GetElaIstioRouteRuleName u)]) = []).
    { rewrite !List.filter_app,
        (filter_none _ _ (getRoutes_writes_nothing u _)),
        (filter_none _ _ (logRoutes_writes_nothing routes _)). reflexivity. }
    destruct (Get rc _ _) as [[existing|e] w2].
    + rewrite Hout. cbn [trace]. by rewrite List.filter_app, Hreads.
    + intros Hnf. rewrite Hnf in Hout. rewrite Hout. cbn [trace].
      by rewrite List.filter_app, Hreads.
  - intros Hsvc Hing.
    destruct (syncHandler_routes_step key ns name u w0 w Hsplit Hget Hsvc Hing)
      as (_ & _ & ->).
    fold svc ing rts. rewrite !List.filter_app. cbn [sync_prologue List.filter is_write app].
    destruct (value rts); cbn; by rewrite ?app_nil_r.
Qed.

(** C10.  For a target that names both a revision and a template, the
    resolver takes the template path: the outcome is the same whatever the
    [Revision] field holds, the template is fetched first, and the revision
    fetched after it is the template's [Latest]. *)
Theorem C10_template_takes_precedence tt_ ns (w : W) :
  RevisionTemplate tt_ ≠ "" →
  Revision tt_ ≠ "" →
  (∀ other,
     getRouteForTrafficTarget tt_ ns w =
     getRouteForTrafficTarget
       {| Revision := other; RevisionTemplate := RevisionTemplate tt_;
          Percent := Percent tt_ |} ns w) ∧
  (∀ err w1, Get (RevisionTemplates ns) (RevisionTemplate tt_) w = (Fail err, w1) →
     getRouteForTrafficTarget tt_ ns w =
       {| value := (zeroRoute, Some err); world := w1;
          trace := [ApiGet KRevisionTemplate ns (RevisionTemplate tt_)] |}) ∧
  (∀ rt w1, Get (RevisionTemplates ns) (RevisionTemplate tt_) w = (Reply rt, w1) →
     let fetch := Get (Revisions ns) (rt_Latest rt) w1 in
     world (getRouteForTrafficTarget tt_ ns w) = fetch.2 ∧
     value (getRouteForTrafficTarget tt_ ns w) =
       match fetch.1 with
       | Reply rev => (route_of ns tt_ rev, None)
       | Fail err => (zeroRoute, Some err)
       end ∧
     ∃ logs,
       trace (getRouteForTrafficTarget tt_ ns w) =
         ApiGet KRevisionTemplate ns (RevisionTemplate tt_) ::
         ApiGet KRevision ns (rt_Latest rt) :: logs ∧
       Forall (λ ev, ∃ f a, ev = LogPrintf f a) logs).
Proof.
  intros Htemplate _. split; [|split].
  - intros other. unfold getRouteForTrafficTarget. cbn [RevisionTemplate Percent].
    rewrite (bool_decide_eq_true_2 _ Htemplate). apply outcome_ext; sync_simpl;
      by destruct (Get (RevisionTemplates ns) (RevisionTemplate tt_) w) as [[rt|err] w1].
  - intros err w1 Hget. unfold getRouteForTrafficTarget.
    rewrite (bool_decide_eq_true_2 _ Htemplate).
    apply outcome_ext; sync_simpl; by rewrite Hget.
  - intros rt w1 Hget fetch. unfold getRouteForTrafficTarget.
    rewrite (bool_decide_eq_true_2 _ Htemplate).
    sync_simpl. rewrite Hget. cbn [fst snd]. sync_simpl. fold fetch.
    destruct fetch.1 as [rev|err]; sync_simpl.
    + split; [done|]. split; [done|]. exists []. by split.
    + split; [done|]. split; [done|]. eexists. split; [reflexivity|].
      repeat constructor. eauto.
Qed.
End ControllerFacts.

(** * Properties of the queue and of the pool *)

Section PoolFacts.
Import Workqueue Pool.
#[local] Set Warnings "-clear-no-such-hyp".

Lemma Add_fields item q :
  dirty (Add item q) = {[item]} ∪ dirty q ∧
  processing (Add item q) = processing q ∧
  queue (Add item q) =
    if decide (item ∈ dirty q) then queue q
    else if decide (item ∈ processing q) then queue q
    else queue q ++ [item].
Proof.
  unfold Add. destruct (decide (item ∈ dirty q)) as [Hd|Hd]; cbn; [|done].
  split; [|done]. apply set_eq. intros x. rewrite elem_of_union, elem_of_singleton.
  split; [tauto|]. by intros [->|?].
Qed.

Lemma AddRateLimited_fields item q :
  dirty (AddRateLimited item q) = {[item]} ∪ dirty q ∧
  processing (AddRateLimited item q) = processing q ∧
  queue (AddRateLimited item q) =
    if decide (item ∈ dirty q) then queue q
    else if decide (item ∈ processing q) then queue q
    else queue q ++ [item].
Proof. unfold AddRateLimited. exact (Add_fields item _). Qed.

Lemma invariant_init : invariant init.
Proof.
  split; [constructor|]. split; [|split].
  - intros item Hin. cbn in Hin. by apply elem_of_nil in Hin.
  - intros w item. cbn. by rewrite lookup_empty.
  - intros w1 w2 item. cbn. by rewrite lookup_empty.
Qed.

Lemma invariant_notify key es S : invariant S → invariant (notify key es S).
Proof.
  intros (Hnd & Hq & Hb & Hu). unfold invariant, notify. cbn [wq busy].
  destruct (AddRateLimited_fields (QString key) (wq S)) as (-> & -> & ->).
  assert (Hfresh : QString key ∉ dirty (wq S) → QString key ∉ queue (wq S)).
  { intros Hnd' Hin. by destruct (Hq _ Hin). }
  split; [|split; [|split]]; try done.
  - destruct (decide (QString key ∈ dirty (wq S))) as [|Hd]; [done|].
    destruct (decide (QString key ∈ processing (wq S))); [done|].
    apply NoDup_app. split; [done|]. split; [|apply NoDup_singleton].
    intros x Hx Hx'. apply list_elem_of_singleton in Hx'. subst x. by apply Hfresh.
  - intros item Hin.
    destruct (decide (QString key ∈ dirty (wq S))) as [|Hd];
      [destruct (Hq _ Hin); set_solver|].
    destruct (decide (QString key ∈ processing (wq S))) as [|Hp];
      [destruct (Hq _ Hin); set_solver|].
    apply elem_of_app in Hin as [Hin|Hin].
    + destruct (Hq _ Hin). set_solver.
    + apply list_elem_of_singleton in Hin. subst item. set_solver.
Qed.

Lemma invariant_take w S S' : invariant S → take w S = Some S' → invariant S'.
Proof.
  intros (Hnd & Hq & Hb & Hu). unfold take, Get.
  destruct (busy S !! w) eqn:Hw; [done|].
  destruct (queue (wq S)) as [|item rest] eqn:Hqueue; [done|].
  intros [= <-]. unfold invariant. cbn [wq busy queue dirty processing].
  apply NoDup_cons in Hnd as [Hhead Hrest].
  assert (Hitem : item ∈ dirty (wq S) ∧ item ∉ processing (wq S))
    by (apply Hq; left).
  split; [done|]. split; [|split].
  - intros x Hx. assert (x ≠ item) by (by intros ->).
    destruct (Hq x) as [? ?]; [by right|]. set_solver.
  - intros w' x. destruct (decide (w' = w)) as [->|Hne].
    + rewrite lookup_insert_eq. intros [= <-]. set_solver.
    + rewrite lookup_insert_ne by done. intros Hx%Hb. set_solver.
  - intros w1 w2 x.
    destruct (decide (w1 = w)) as [->|H1], (decide (w2 = w)) as [->|H2]; [done| | |].
    + rewrite lookup_insert_eq, lookup_insert_ne by done.
      intros [= <-] Hx%Hb. by destruct Hitem.
    + rewrite lookup_insert_eq, lookup_insert_ne by done.
      intros Hx%Hb [= <-]. by destruct Hitem.
    + rewrite !lookup_insert_ne by done. apply Hu.
Qed.

Lemma invariant_finish w forget S S' :
  invariant S → finish w forget S = Some S' → invariant S'.
Proof.
  intros (Hnd & Hq & Hb & Hu). unfold finish.
  destruct (busy S !! w) as [item|] eqn:Hw; [|done].
  intros [= <-]. unfold invariant. cbn [wq busy].
  assert (Hsame : ∀ q : Workqueue.t,
            queue (if forget then Forget item q else q) = queue q ∧
            dirty (if forget then Forget item q else q) = dirty q ∧
            processing (if forget then Forget item q else q) = processing q)
    by (by destruct forget).
  destruct (Hsame (wq S)) as (Eq & Ed & Ep).
  unfold Done. cbn [queue dirty processing]. rewrite Eq, Ed, Ep.
  pose proof (Hb w item Hw) as Hflight.
  assert (Hout : item ∉ queue (wq S)).
  { intros Hin. by destruct (Hq _ Hin). }
  split; [|split; [|split]].
  - destruct (decide (item ∈ dirty (wq S))); [|done].
    apply NoDup_app. split; [done|]. split; [|apply NoDup_singleton].
    intros x Hx Hx'. apply list_elem_of_singleton in Hx'. by subst x.
  - intros x Hx. destruct (decide (item ∈ dirty (wq S))) as [Hd|Hd].
    + apply elem_of_app in Hx as [Hx|Hx].
      * destruct (Hq _ Hx). set_solver.
      * apply list_elem_of_singleton in Hx. subst x. set_solver.
    + destruct (Hq _ Hx). set_solver.
  - intros w' x Hx. apply lookup_delete_Some in Hx as [Hne Hx].
    assert (x ≠ item) by (intros ->; by apply Hne, (Hu w w' item)).
    apply Hb in Hx. set_solver.
  - intros w1 w2 x H1 H2.
    apply lookup_delete_Some in H1 as [_ H1], H2 as [_ H2]. by apply (Hu w1 w2 x).
Qed.

Lemma invariant_step S S' : invariant S → step S S' → invariant S'.
Proof.
  intros Hinv Hstep. destruct Hstep as [key es S|w S S' Htake|w forget S S' Hfin].
  - by apply invariant_notify.
  - by eapply invariant_take.
  - by eapply invariant_finish.
Qed.

Lemma invariant_reachable S : reachable S → invariant S.
Proof.
  unfold reachable. revert S.
  apply (rtc_ind_r (λ S, invariant S) init); [apply invariant_init|].
  intros S S' _ Hstep Hinv. by eapply invariant_step.
Qed.

Lemma drain_pending n q :
  NoDup (queue q) → (∀ x, x ∈ queue q → x ∈ dirty q) →
  drain n q = firstn n (queue q).
Proof.
  revert q. induction n as [|n IH]; intros q Hnd Hd; [done|].
  cbn [drain]. unfold Get. destruct (queue q) as [|item rest] eqn:Hq; [done|].
  cbn [firstn]. f_equal. apply NoDup_cons in Hnd as [Hhead Hrest].
  assert (Hnot : item ∉ dirty q ∖ {[item]}) by set_solver.
  rewrite IH; unfold Done; cbn [queue dirty];
    destruct (decide (item ∈ dirty q ∖ {[item]})); try done.
  intros x Hx. assert (x ≠ item) by (by intros ->).
  assert (x ∈ dirty q) by (apply Hd; by right). set_solver.
Qed.

Lemma count_occ_fresh (item : QItem) l :
  item ∉ l → count_occ QItem_eq_dec (l ++ [item]) item = 1%nat.
Proof.
  intros Hnot. rewrite count_occ_app.
  rewrite (proj1 (count_occ_not_In QItem_eq_dec l item)).
  - cbn. by destruct (QItem_eq_dec item item).
  - by rewrite <- list_elem_of_In.
Qed.

End PoolFacts.

(** * The controller on the sample cluster *)

(** C1.  The worker on a failed sync, run on the sample cluster while the
    creation of services times out: the sync of the queued key [default/svc-a]
    fails, and the worker calls [Get] and [Done] on the queue and nothing
    else, neither [AddRateLimited] nor [Forget]; the error is only logged, and
    afterwards the key is neither pending, dirty nor in flight, so nothing
    will retry it.  On the healthy cluster the sync succeeds and the worker
    calls [Forget] before [Done], which resets the retry counter of the key to
    zero. *)
Theorem C1_failed_sync_is_not_requeued :
  let key := "default/svc-a" in
  let failed := processNextWorkItem Fake.cluster_timing_out in
  let ok := processNextWorkItem Fake.cluster_enqueued in
  (Workqueue.queue (Fake.wq Fake.cluster_timing_out) = [QString key] ∧
   value failed = true ∧
   queue_calls (trace failed) = [QueueGet; QueueDone (QString key)] ∧
   last (trace failed) =
     Some (HandleError (ErrorString "error syncing 'default/svc-a': request timed out")) ∧
   Workqueue.queue (Fake.wq (world failed)) = [] ∧
   Workqueue.dirty (Fake.wq (world failed)) = ∅ ∧
   Workqueue.processing (Fake.wq (world failed)) = ∅ ∧
   Workqueue.NumRequeues (QString key) (Fake.wq (world failed)) = 1%nat) ∧
  (Workqueue.NumRequeues (QString key) (Fake.wq Fake.cluster_enqueued) = 1%nat ∧
   value ok = true ∧
   queue_calls (trace ok) =
     [QueueGet; QueueForget (QString key); QueueDone (QString key)] ∧
   Workqueue.NumRequeues (QString key) (Fake.wq (world ok)) = 0%nat).
Proof. vm_compute. repeat split; reflexivity. Qed.

(** C2, the claim as stated fails: on the sample cluster the placeholder
    service, the ingress and the route rule are created by a first
    reconciliation of [svc-a]; a second reconciliation succeeds, updates the
    route rule, and sends no update for the service nor for the ingress. *)
Lemma C2_second_sync_updates_only_the_route_rule :
  let first := syncHandler "default/svc-a" Fake.cluster in
  let second := syncHandler "default/svc-a" (world first) in
  value first = None ∧
  (is_create_of KService <$> List.filter is_write (trace first)) = [true; false; false] ∧
  (is_create_of KIngress <$> List.filter is_write (trace first)) = [false; true; false] ∧
  (is_create_of KRouteRule <$> List.filter is_write (trace first)) = [false; false; true] ∧
  value second = None ∧
  existsb (is_update_of KRouteRule) (trace second) = true ∧
  existsb (is_update_of KService) (trace second) = false ∧
  existsb (is_update_of KIngress) (trace second) = false ∧
  ¬ (∀ k, k ∈ [KService; KIngress; KRouteRule] →
          existsb (is_update_of k) (trace second) = true).
Proof.
  cbv zeta. repeat split; try (vm_compute; reflexivity).
  intros Hall. specialize (Hall KService ltac:(left)).
  vm_compute in Hall. discriminate.
Qed.

(** The scenario of C3 on the sample cluster. *)
Lemma C3_witness :
  spec_resolve_all "default" (es_Traffic Fake.svc_a) Fake.cluster =
    (Reply [Fake.rev_1; Fake.rev_2], Fake.cluster) ∧
  (value (getRoutes Fake.svc_a Fake.cluster)).1 =
    [ {| Service := "rev-1-svc.default-ela"; Weight := 90 |};
      {| Service := "rev-2-svc.default-ela"; Weight := 10 |} ].
Proof.
  assert (Hres : spec_resolve_all (es_Namespace Fake.svc_a) (es_Traffic Fake.svc_a)
                   Fake.cluster = (Reply [Fake.rev_1; Fake.rev_2], Fake.cluster))
    by (vm_compute; reflexivity).
  split; [exact Hres|].
  destruct (C3_getRoutes_weights_and_services Fake.svc_a Fake.cluster _ _ Hres)
    as (_ & _ & _ & _ & _ & Hscenario).
  apply Hscenario; reflexivity.
Defined.

(** On the sample cluster without [rev-2] the second target does not
    resolve, and the reconciliation of [svc-a] fails with the not-found error
    of the revision. *)
Lemma unresolved_target_on_sample_cluster :
  value (getRoutes Fake.svc_a Fake.before_routes) = ([], Some (Fake.notFound "rev-2")) ∧
  value (syncHandler "default/svc-a" Fake.cluster_without_rev_2) =
    Some (Fake.notFound "rev-2").
Proof.
  destruct (unresolved_target_fails_whole_sync Fake.svc_a
              [ {| Revision := "rev-1"; RevisionTemplate := ""; Percent := 90 |} ]
              {| Revision := "rev-2"; RevisionTemplate := ""; Percent := 10 |} []
              [Fake.rev_1] (Fake.notFound "rev-2")
              Fake.before_routes Fake.before_routes Fake.before_routes)
    as (Hroutes & _ & _ & Hsync);
    [reflexivity|vm_compute; reflexivity|vm_compute; reflexivity|].
  split; [exact Hroutes|].
  destruct (Hsync "default/svc-a" "default" "svc-a"
              Fake.routeClient
              Fake.cluster_without_rev_2 Fake.cluster_without_rev_2) as (Hv & _);
    [reflexivity|reflexivity|vm_compute; reflexivity|vm_compute; reflexivity
    |vm_compute; reflexivity|vm_compute; reflexivity|].
  exact Hv.
Defined.

(** C4.  The worker on a sync whose second traffic target does not resolve,
    run on the sample cluster without [rev-2]: resolution returns the
    not-found error of [rev-2] and no route, the reconciliation returns that
    error having written no route rule, and the error reaches the worker,
    which logs it.  But the worker calls only [Get] and [Done] on the queue:
    the key is not re-queued, afterwards it is neither pending, dirty nor in
    flight, and a worker that keeps running looks the resource up just once
    before the queue is empty.  The failed sync is not retried. *)
Theorem C4_unresolved_target_sync_is_not_retried :
  let key := "default/svc-a" in
  let err := Fake.notFound "rev-2" in
  let sync := syncHandler key Fake.cluster_without_rev_2 in
  let run := processNextWorkItem Fake.cluster_without_rev_2_enqueued in
  let loop := runWorker 5 Fake.cluster_without_rev_2_enqueued in
  value (getRoutes Fake.svc_a Fake.before_routes) = ([], Some err) ∧
  value sync = Some err ∧
  existsb (is_create_of KRouteRule) (trace sync) = false ∧
  existsb (is_update_of KRouteRule) (trace sync) = false ∧
  Workqueue.queue (Fake.wq Fake.cluster_without_rev_2_enqueued) = [QString key] ∧
  value run = true ∧
  last (trace run) =
    Some (HandleError (ErrorString "error syncing 'default/svc-a': rev-2 not found")) ∧
  queue_calls (trace run) = [QueueGet; QueueDone (QString key)] ∧
  Workqueue.queue (Fake.wq (world run)) = [] ∧
  Workqueue.dirty (Fake.wq (world run)) = ∅ ∧
  Workqueue.processing (Fake.wq (world run)) = ∅ ∧
  value loop = true ∧
  length (List.filter is_get (trace loop)) = 2%nat ∧
  length (List.filter is_lister_get (trace loop)) = 1%nat.
Proof. vm_compute. repeat split; reflexivity. Qed.

(** C2 as amended, on the reconciled sample cluster: a further
    reconciliation of [svc-a] sends the create of the service again, whose
    already-exists error is tolerated, and updates the route rule. *)
Lemma C2_witness :
  List.filter is_write (trace (syncHandler "default/svc-a" Fake.synced)) =
    [ ApiCreate "default" (OService Fake.service_a);
      ApiUpdate "default" (ORouteRule Fake.rule_a) ].
Proof.
  destruct (C2_created_and_only_route_rule_updated
              "default/svc-a" "default" "svc-a" Fake.svc_a Fake.synced Fake.synced)
    as (_ & _ & _ & Htolerated & _ & _ & Hwrites);
    [reflexivity|vm_compute; reflexivity|].
  destruct (Htolerated (Fake.alreadyExists "svc-a-service") Fake.synced)
    as (Hnil & _); [vm_compute; reflexivity|reflexivity|].
  rewrite Hwrites; [|exact Hnil|vm_compute; reflexivity]. vm_compute. reflexivity.
Defined.

(** C5 on the reconciled sample cluster: the route rule is found and is sent
    back with the spec computed from the current routes. *)
Lemma C5_witness :
  List.filter is_write (trace (createOrUpdateRoutes Fake.svc_a "default" Fake.synced)) =
    [ ApiUpdate "default" (ORouteRule Fake.rule_a) ].
Proof.
  destruct (C5_route_rule_full_replace Fake.svc_a "default" Fake.routeClient
              Fake.routes_a Fake.synced) as (Hfound & _);
    [reflexivity|vm_compute; reflexivity|discriminate|].
  destruct (Hfound Fake.rule_a Fake.synced) as (_ & _ & _ & _ & Hwrites & _);
    [vm_compute; reflexivity|].
  exact Hwrites.
Defined.

(** C6 on the sample cluster: the key of a resource that is not in the cache
    is synced without error. *)
Lemma C6_witness :
  value (syncHandler "default/gone" Fake.cluster) = None ∧
  trace (syncHandler "default/gone" Fake.cluster) =
    [ListerGet "default" "gone";
     HandleError (ErrorString "elaservice 'default/gone' in work queue no longer exists")].
Proof.
  destruct (C6_deleted_resource_is_success "default/gone" "default" "gone"
              (Fake.notFound "gone") Fake.cluster Fake.cluster)
    as (Hgone & _); [reflexivity|vm_compute; reflexivity|].
  destruct Hgone as (Hsync & _); [reflexivity|].
  rewrite Hsync. split; reflexivity.
Defined.

(** C7 on the reconciled sample cluster: the service already exists, its
    creation fails with already-exists, and the reconciliation still
    succeeds. *)
Lemma C7_witness :
  value (createPlaceholderService Fake.svc_a "default" Fake.synced) = None ∧
  value (syncHandler "default/svc-a" Fake.synced) = None.
Proof.
  destruct (C7_already_exists_is_tolerated
              "default/svc-a" "default" "svc-a" Fake.svc_a Fake.synced Fake.synced)
    as (Hservice & _ & _); [reflexivity|vm_compute; reflexivity|].
  specialize (Hservice (Fake.alreadyExists "svc-a-service") Fake.synced
                ltac:(vm_compute; reflexivity)).
  cbn [IsAlreadyExists Fake.alreadyExists] in Hservice.
  destruct Hservice as (Hcreate & Hsync). split; [exact Hcreate|].
  rewrite Hsync. vm_compute. reflexivity.
Defined.

(** C8 on the sample cluster: a resource without traffic targets resolves to
    no route, and the route step only logs. *)
Lemma C8_witness :
  createOrUpdateRoutes Fake.svc_idle "default" Fake.cluster =
    {| value := None; world := Fake.cluster;
       trace := [LogPrintf "Figuring out routes for ElaService: %s" [ArgS "svc-idle"];
                 LogPrintf "No routes were found for the service %q" [ArgS "svc-idle"]] |}.
Proof.
  destruct (C8_empty_routes_skip_the_rule Fake.svc_idle "default"
              Fake.routeClient
              Fake.cluster) as (Hout & _); [reflexivity|reflexivity|].
  rewrite Hout. reflexivity.
Defined.

(** C10 on the sample cluster with a template: the target names [rev-1] and
    the template [tmpl], whose latest revision is [rev-2]; the route goes to
    the service of [rev-2]. *)
Lemma C10_witness :
  value (getRouteForTrafficTarget Fake.target_both "default" Fake.cluster_with_template) =
    ({| Service := "rev-2-svc.default-ela"; Weight := 100 |}, None).
Proof.
  destruct (C10_template_takes_precedence Fake.target_both "default"
              Fake.cluster_with_template) as (_ & _ & Hlatest); [done|done|].
  destruct (Hlatest Fake.tmpl Fake.cluster_with_template) as (_ & Hvalue & _);
    [vm_compute; reflexivity|].
  rewrite Hvalue. vm_compute. reflexivity.
Defined.


(** * Further properties of the controller *)

Section WorkerFacts.
Context `{Makers} {W : Type} `{!Clientset W}.

Ltac run_simpl :=
  repeat progress
    (rewrite ?bind_value, ?bind_world, ?bind_trace;
     cbn [fst snd Infof Printf emit call_ call ret value world trace id
          runtime_HandleError]).

Lemma filter_sync_events (P : Event → bool) key (w : W) :
  (∀ ev, sync_event ev → P ev = false) →
  List.filter P (trace (syncHandler key w)) = [].
Proof.
  intros HP. apply filter_none. eapply Forall_impl; [apply syncHandler_emits|].
  exact HP.
Qed.

Lemma processNextWorkItem_shutdown (w : W) :
  (workqueue_Get w).1.2 = true →
  processNextWorkItem w =
    {| value := false; world := (workqueue_Get w).2; trace := [QueueGet] |}.
Proof.
  intros Hdown. unfold processNextWorkItem.
  apply outcome_ext; run_simpl; rewrite Hdown; reflexivity.
Qed.

Lemma processNextWorkItem_other gosyntax (w w0 : W) :
  workqueue_Get w = ((QOther gosyntax, false), w0) →
  processNextWorkItem w =
    {| value := true;
       world := workqueue_Done (QOther gosyntax) (workqueue_Forget (QOther gosyntax) w0);
       trace := [QueueGet; QueueForget (QOther gosyntax);
                 HandleError (ErrorString
                   ("expected string in workqueue but got " +:+ gosyntax));
                 QueueDone (QOther gosyntax)] |}.
Proof.
  intros Hget. unfold processNextWorkItem.
  apply outcome_ext; run_simpl; rewrite Hget; reflexivity.
Qed.

(** X1.  A key that [SplitMetaNamespaceKey] rejects is dropped: [syncHandler]
    logs it, returns nil and changes nothing, and the worker that took the key
    off the queue calls [Forget] and [Done] without any call to the lister, to
    the API server or to the recorder. *)
Theorem X1_malformed_key_is_dropped key ns name e (w : W) :
  SplitMetaNamespaceKey key = (ns, name, Some e) →
  syncHandler key w =
    {| value := None; world := w;
       trace := [HandleError (ErrorString ("invalid resource key: " +:+ key))] |} ∧
  ∀ wq0, workqueue_Get wq0 = ((QString key, false), w) →
    queue_calls (trace (processNextWorkItem wq0)) =
      [QueueGet; QueueForget (QString key); QueueDone (QString key)] ∧
    List.filter is_api_call (trace (processNextWorkItem wq0)) = [].
Proof.
  intros Hsplit.
  assert (Hsync : syncHandler key w =
    {| value := None; world := w;
       trace := [HandleError (ErrorString ("invalid resource key: " +:+ key))] |}).
  { unfold syncHandler. rewrite Hsplit. reflexivity. }
  split; [done|]. intros wq0 Hq.
  destruct (processNextWorkItem_key key wq0 w Hq) as (_ & _ & ->).
  rewrite Hsync. split; reflexivity.
Qed.

(** X2.  An item of the queue that is not a string is never handed to
    [syncHandler]: the worker calls [Forget], logs the item and calls [Done],
    in this order, makes no other call, and goes on ([true]). *)
Theorem X2_non_string_item_is_forgotten gosyntax (w w0 : W) :
  workqueue_Get w = ((QOther gosyntax, false), w0) →
  value (processNextWorkItem w) = true ∧
  world (processNextWorkItem w) =
    workqueue_Done (QOther gosyntax) (workqueue_Forget (QOther gosyntax) w0) ∧
  queue_calls (trace (processNextWorkItem w)) =
    [QueueGet; QueueForget (QOther gosyntax); QueueDone (QOther gosyntax)] ∧
  List.filter is_api_call (trace (processNextWorkItem w)) = [] ∧
  List.filter (λ ev, negb (is_queue_call ev)) (trace (processNextWorkItem w)) =
    [HandleError (ErrorString ("expected string in workqueue but got " +:+ gosyntax))].
Proof.
  intros Hget. rewrite (processNextWorkItem_other gosyntax w w0 Hget).
  by repeat split.
Qed.

(** X3.  [processNextWorkItem] returns [false] exactly when [Get] reports
    that the queue is shut down, and then it has made no call but that [Get];
    whatever the outcome of a sync, it returns [true], so a failing sync never
    stops the worker. *)
Theorem X3_worker_stops_only_on_shutdown (w : W) :
  value (processNextWorkItem w) = negb (workqueue_Get w).1.2 ∧
  ((workqueue_Get w).1.2 = true →
   world (processNextWorkItem w) = (workqueue_Get w).2 ∧
   trace (processNextWorkItem w) = [QueueGet]).
Proof.
  split.
  - destruct (workqueue_Get w) as [[obj shutdown] w0] eqn:Hget.
    destruct shutdown.
    + rewrite processNextWorkItem_shutdown; [done|by rewrite Hget].
    + destruct obj as [key|gosyntax].
      * by destruct (processNextWorkItem_key key w w0 Hget) as (-> & _).
      * by rewrite (processNextWorkItem_other gosyntax w w0 Hget).
  - intros Hdown. by rewrite (processNextWorkItem_shutdown w Hdown).
Qed.

Lemma processNextWorkItem_item obj (w w0 : W) :
  workqueue_Get w = ((obj, false), w0) →
  value (processNextWorkItem w) = true ∧
  List.filter is_get (trace (processNextWorkItem w)) = [QueueGet] ∧
  List.filter is_done (trace (processNextWorkItem w)) = [QueueDone obj] ∧
  ∃ before after,
    trace (processNextWorkItem w) = before ++ QueueDone obj :: after ∧
    Forall (λ ev, is_api_call ev = false ∧ is_queue_call ev = false) after.
Proof.
  intros Hget. destruct obj as [key|gosyntax].
  - destruct (processNextWorkItem_key key w w0 Hget) as (Hv & _ & Ht).
    split; [done|]. rewrite Ht, !List.filter_app.
    rewrite !filter_sync_events by (intros ev; by destruct ev).
    destruct (value (syncHandler key w0)) as [err|].
    + split; [done|]. split; [done|].
      exists ([QueueGet] ++ trace (syncHandler key w0)), [HandleError
        (ErrorString ("error syncing '" +:+ key +:+ "': " +:+ Error err))].
      split; [by rewrite <- app_assoc|]. by repeat constructor.
    + split; [done|]. split; [done|].
      exists ([QueueGet] ++ trace (syncHandler key w0) ++
              [QueueForget (QString key); GlogInfof "Successfully synced '%s'" [ArgS key]]), [].
      split; [by rewrite <- !app_assoc|]. constructor.
  - rewrite (processNextWorkItem_other gosyntax w w0 Hget). cbn.
    split; [done|]. split; [done|]. split; [done|].
    eexists [_; _; _], []. split; [reflexivity|constructor].
Qed.

(** X4.  For every item [Get] hands out, string or not, and whatever the
    sync does, the worker calls [Done] exactly once, on that very item, and
    after [Done] it makes no further call to the queue, the lister, the API
    server or the recorder. *)
Theorem X4_done_exactly_once obj (w w0 : W) :
  workqueue_Get w = ((obj, false), w0) →
  List.filter is_done (trace (processNextWorkItem w)) = [QueueDone obj] ∧
  ∃ before after,
    trace (processNextWorkItem w) = before ++ QueueDone obj :: after ∧
    Forall (λ ev, is_api_call ev = false ∧ is_queue_call ev = false) after.
Proof.
  intros Hget. by destruct (processNextWorkItem_item obj w w0 Hget) as (_ & _ & ? & ?).
Qed.

Lemma runWorker_step fuel (w : W) :
  runWorker (S fuel) w =
    let p := processNextWorkItem w in
    if value p then
      let r := runWorker fuel (world p) in
      {| value := value r; world := world r; trace := trace p ++ trace r |}
    else {| value := true; world := world p; trace := trace p |}.
Proof.
  cbn [runWorker]. apply outcome_ext; run_simpl;
    destruct (value (processNextWorkItem w)); cbn [value world trace ret];
    by rewrite ?app_nil_r.
Qed.

(** X5.  However many items [runWorker] goes through, every [Get] that
    handed out an item is matched by one [Done]: the loop has called [Get]
    once more than [Done] when it has ended, which it does only on a [Get]
    that reports shutdown and which is then its last call, and exactly as
    often as [Done] while it is still going. *)
Theorem X5_runWorker_pairs_get_with_done fuel (w : W) :
  let out := runWorker fuel w in
  let gets := length (List.filter is_get (trace out)) in
  let dones := length (List.filter is_done (trace out)) in
  gets = (dones + if value out then 1 else 0)%nat ∧
  (gets ≤ fuel)%nat ∧
  (value out = false → gets = fuel) ∧
  (value out = true → last (trace out) = Some QueueGet).
Proof.
  revert w. induction fuel as [|fuel IH]; intros w.
  - cbn. repeat split; try done; lia.
  - cbv zeta. rewrite runWorker_step. cbv zeta.
    destruct (workqueue_Get w) as [[obj shutdown] w0] eqn:Hget.
    destruct shutdown.
    + rewrite processNextWorkItem_shutdown by (by rewrite Hget). cbn.
      repeat split; try done; lia.
    + destruct (processNextWorkItem_item obj w w0 Hget) as (Hv & Hg & Hd & _).
      rewrite Hv. cbn [value world trace].
      rewrite !List.filter_app, !length_app, Hg, Hd.
      specialize (IH (world (processNextWorkItem w))). cbv zeta in IH.
      destruct IH as (IH1 & IH2 & IH3 & IH4). cbn [length].
      split; [lia|]. split; [lia|]. split; [intros Hf; specialize (IH3 Hf); lia|].
      intros Ht. specialize (IH4 Ht). by rewrite last_app, IH4.
Qed.

(** X6.  When the key computed for a resource splits back into the
    namespace and the name of that resource, an add or update notification
    puts exactly that key on the queue, as a string and rate limited, and a
    worker that takes the key off the queue starts by looking up that
    namespace and name in the lister. *)
Theorem X6_enqueued_key_names_the_resource obj key (w : W) :
  MetaNamespaceKeyFunc obj = (key, None) →
  SplitMetaNamespaceKey key = (es_Namespace obj, es_Name obj, None) →
  trace (handleNotification (Added obj) w) = [QueueAddRateLimited (QString key)] ∧
  world (handleNotification (Added obj) w) = workqueue_AddRateLimited (QString key) w ∧
  (∀ old, handleNotification (Updated old obj) w = handleNotification (Added obj) w) ∧
  (∀ w', head (trace (syncHandler key w')) =
           Some (ListerGet (es_Namespace obj) (es_Name obj))) ∧
  (∀ wq0 w', workqueue_Get wq0 = ((QString key, false), w') →
     List.firstn 2 (trace (processNextWorkItem wq0)) =
       [QueueGet; ListerGet (es_Namespace obj) (es_Name obj)]).
Proof.
  intros Hkey Hsplit.
  assert (Hhead : ∀ w', ∃ rest, trace (syncHandler key w') =
            ListerGet (es_Namespace obj) (es_Name obj) :: rest).
  { intros w'. unfold syncHandler. rewrite Hsplit. run_simpl. eauto. }
  split; [cbn; unfold enqueueElaService; by rewrite Hkey|].
  split; [cbn; unfold enqueueElaService; by rewrite Hkey|].
  split; [done|]. split.
  - intros w'. destruct (Hhead w') as [rest ->]. reflexivity.
  - intros wq0 w' Hq. destruct (processNextWorkItem_key key wq0 w' Hq) as (_ & _ & ->).
    destruct (Hhead w') as [rest ->]. reflexivity.
Qed.

(** X7.  A notification makes at most one call to the queue, and only to
    add a string key; a deletion makes none and changes nothing, and so does
    an addition or update whose key cannot be computed, which is only
    logged. *)
Theorem X7_notifications_enqueue_at_most_once n (w : W) :
  (length (queue_calls (trace (handleNotification n w))) ≤ 1)%nat ∧
  Forall (λ ev, match ev with
                | QueueAddRateLimited (QString _) | HandleError _ => True
                | _ => False
                end) (trace (handleNotification n w)) ∧
  (∀ obj, n = Deleted obj →
     trace (handleNotification n w) = [] ∧ world (handleNotification n w) = w) ∧
  (∀ old obj key err, n = Added obj ∨ n = Updated old obj →
     MetaNamespaceKeyFunc obj = (key, Some err) →
     trace (handleNotification n w) = [HandleError err] ∧
     world (handleNotification n w) = w).
Proof.
  assert (Henq : ∀ obj,
    (length (queue_calls (trace (enqueueElaService obj w))) ≤ 1)%nat ∧
    Forall (λ ev, match ev with
                  | QueueAddRateLimited (QString _) | HandleError _ => True
                  | _ => False
                  end) (trace (enqueueElaService obj w))).
  { intros obj. unfold enqueueElaService.
    destruct (MetaNamespaceKeyFunc obj) as [key [err|]]; cbn;
      split; try lia; by repeat constructor. }
  split; [|split; [|split]].
  - destruct n as [obj|old new|obj]; cbn [handleNotification];
      [apply Henq|apply Henq|cbn; lia].
  - destruct n as [obj|old new|obj]; cbn [handleNotification];
      [apply Henq|apply Henq|constructor].
  - by intros obj ->.
  - intros old obj key err [-> | ->] Hkey; cbn [handleNotification];
      unfold enqueueElaService; by rewrite Hkey.
Qed.
End WorkerFacts.

Section ReconcilerFacts.
Context `{Makers} {W : Type} `{!Clientset W}.

Ltac run_simpl :=
  repeat progress
    (rewrite ?bind_value, ?bind_world, ?bind_trace;
     cbn [fst snd Infof Printf emit call_ call ret value world trace id
          runtime_HandleError]).

Ltac emits_more :=
  lazymatch goal with
  | |- emits _ (bind _ _) => apply emits_bind; [|intros ?]
  | |- emits _ (ret _) => apply emits_ret
  | |- emits _ (Printf _ _) => apply emits_Printf
  | |- emits _ (Infof _ _) => apply emits_Infof
  | |- emits _ (runtime_HandleError _) => apply emits_HandleError
  | |- emits _ (call_ _ _) => apply emits_call_
  | |- emits _ (call _ _) => apply emits_call
  | |- emits _ (match ?x with _ => _ end) => destruct x
  | |- emits _ (let _ := _ in _) => cbv zeta
  end.

(** X8.  [createOrUpdateIngress] writes only when the lookup of the ingress
    reports not-found: when the ingress is found the step returns nil after
    that one read, and a lookup error other than not-found is returned as it
    is, nothing having been created. *)
Theorem X8_ingress_found_or_unreadable_is_not_written es ns r (w w1 : W) :
  Get (Ingresses ns) (GetElaK8SIngressName es) w = (r, w1) →
  match r with
  | Reply _ =>
      createOrUpdateIngress es ns w =
        {| value := None; world := w1;
           trace := [ApiGet KIngress ns (GetElaK8SIngressName es)] |}
  | Fail err =>
      IsNotFound err = false →
      createOrUpdateIngress es ns w =
        {| value := Some err; world := w1;
           trace := [ApiGet KIngress ns (GetElaK8SIngressName es)] |}
  end.
Proof.
  intros Hget. destruct r as [o|err].
  - by apply createOrUpdateIngress_found with o.
  - intros Hnf. by apply createOrUpdateIngress_get_error.
Qed.

Lemma resolver_event_apply ev : resolver_event ev → apply_event ev.
Proof. destruct ev as [[] ? ?| | | | | | | | | | | |]; cbn; tauto. Qed.

Lemma createPlaceholderService_applies u ns :
  emits apply_event (createPlaceholderService u ns).
Proof. unfold createPlaceholderService. repeat emits_more; exact I. Qed.

Lemma createOrUpdateIngress_applies es ns :
  emits apply_event (createOrUpdateIngress es ns).
Proof. unfold createOrUpdateIngress. repeat emits_more; exact I. Qed.

Lemma createOrUpdateRoutes_applies u ns :
  emits apply_event (createOrUpdateRoutes u ns).
Proof.
  unfold createOrUpdateRoutes. destruct (RouteRules ns) as [routeClient|].
  - apply emits_bind.
    { eapply emits_weaken; [apply resolver_event_apply|apply getRoutes_emits]. }
    intros [routes [err|]]; [repeat emits_more; exact I|].
    destruct (length routes =? 0)%nat; [repeat emits_more; exact I|].
    apply emits_bind; [by apply logRoutes_emits|].
    intros _. repeat emits_more; exact I.
  - repeat emits_more; exact I.
Qed.

Lemma filter_emitted {A} (P : Event → Prop) (b : Event → bool) (m : M W A) (w : W) :
  emits P m → (∀ ev, P ev → b ev = false) → List.filter b (trace (m w)) = [].
Proof.
  intros Hm Hb. apply filter_none. eapply Forall_impl; [apply Hm|exact Hb].
Qed.

Lemma apply_event_not_recorder ev : apply_event ev → is_recorder ev = false.
Proof. by destruct ev. Qed.

(** The three ways a reconciliation that found its resource can go. *)
Lemma syncHandler_cases key ns name es (w0 wa : W) :
  SplitMetaNamespaceKey key = (ns, name, None) →
  lister_Get ns name w0 = (Reply es, wa) →
  let svc := createPlaceholderService es ns wa in
  let ing := createOrUpdateIngress es ns (world svc) in
  let rts := createOrUpdateRoutes es ns (world ing) in
  (∃ err, value (syncHandler key w0) = Some err ∧
     trace (syncHandler key w0) = sync_prologue ns name es ++ trace svc) ∨
  (∃ err, value (syncHandler key w0) = Some err ∧
     trace (syncHandler key w0) =
       sync_prologue ns name es ++ trace svc ++
       [LogPrintf "Creating or updating ingress rule" []] ++ trace ing ++
       [LogPrintf "Failed to create ingress rule: %s" [ArgErr err]]) ∨
  (value (syncHandler key w0) = value rts ∧
   trace (syncHandler key w0) =
     sync_prologue ns name es ++ trace svc ++
     [LogPrintf "Creating or updating ingress rule" []] ++ trace ing ++
     [LogPrintf "Creating istio route rules" []] ++ trace rts ++
     match value rts with
     | Some err => [LogPrintf "Failed to create Routes: %s" [ArgErr err]]
     | None => [RecorderEvent es EventTypeNormal SuccessSynced MessageResourceSynced]
     end).
Proof.
  intros Hsplit Hget svc ing rts.
  destruct (value svc) as [err|] eqn:Hsvc.
  - left. exists err.
    by destruct (syncHandler_service_step key ns name es err w0 wa Hsplit Hget Hsvc)
      as (? & _ & ?).
  - destruct (fatal_unless IsAlreadyExists (value ing)) as [err|] eqn:Hing.
    + right. left. exists err.
      by destruct (syncHandler_ingress_step key ns name es err w0 wa Hsplit Hget Hsvc Hing)
        as (? & _ & ?).
    + right. right.
      by destruct (syncHandler_routes_step key ns name es w0 wa Hsplit Hget Hsvc Hing)
        as (? & _ & ?).
Qed.

(** X10.  The [Synced] event is recorded at most once in a reconciliation,
    only when the reconciliation returns nil, and then as its very last
    action.  A reconciliation that returns an error records no event, nor
    does one that is given a malformed key or that finds no resource in the
    lister, whatever the lister's error.  A reconciliation that finds the
    resource and returns nil does record the event, for that resource. *)
Theorem X10_synced_event_only_on_success key (w : W) :
  (List.filter is_recorder (trace (syncHandler key w)) = [] ∨
   value (syncHandler key w) = None ∧
   ∃ es, let ev := RecorderEvent es EventTypeNormal SuccessSynced MessageResourceSynced in
         List.filter is_recorder (trace (syncHandler key w)) = [ev] ∧
         last (trace (syncHandler key w)) = Some ev) ∧
  (∀ err, value (syncHandler key w) = Some err →
     List.filter is_recorder (trace (syncHandler key w)) = []) ∧
  (∀ ns name e, SplitMetaNamespaceKey key = (ns, name, Some e) →
     List.filter is_recorder (trace (syncHandler key w)) = []) ∧
  (∀ ns name err wa,
     SplitMetaNamespaceKey key = (ns, name, None) →
     lister_Get ns name w = (Fail err, wa) →
     List.filter is_recorder (trace (syncHandler key w)) = []) ∧
  (∀ ns name es wa,
     SplitMetaNamespaceKey key = (ns, name, None) →
     lister_Get ns name w = (Reply es, wa) →
     value (syncHandler key w) = None →
     List.filter is_recorder (trace (syncHandler key w)) =
       [RecorderEvent es EventTypeNormal SuccessSynced MessageResourceSynced] ∧
     last (trace (syncHandler key w)) =
       Some (RecorderEvent es EventTypeNormal SuccessSynced MessageResourceSynced)).
Proof.
  assert (Hparts : ∀ ns name es wa,
    SplitMetaNamespaceKey key = (ns, name, None) →
    lister_Get ns name w = (Reply es, wa) →
    (List.filter is_recorder (trace (syncHandler key w)) = [] ∧
     value (syncHandler key w) ≠ None) ∨
    (value (syncHandler key w) = None ∧
     List.filter is_recorder (trace (syncHandler key w)) =
       [RecorderEvent es EventTypeNormal SuccessSynced MessageResourceSynced] ∧
     last (trace (syncHandler key w)) =
       Some (RecorderEvent es EventTypeNormal SuccessSynced MessageResourceSynced))).
  { intros ns name es wa Hsplit Hget.
    pose proof (λ u n v, filter_emitted apply_event is_recorder _ v
                  (createPlaceholderService_applies u n) apply_event_not_recorder) as Fsvc.
    pose proof (λ u n v, filter_emitted apply_event is_recorder _ v
                  (createOrUpdateIngress_applies u n) apply_event_not_recorder) as Fing.
    pose proof (λ u n v, filter_emitted apply_event is_recorder _ v
                  (createOrUpdateRoutes_applies u n) apply_event_not_recorder) as Frts.
    destruct (syncHandler_cases key ns name es w wa Hsplit Hget)
      as [(err & Hv & Ht)|[(err & Hv & Ht)|(Hv & Ht)]].
    - left. rewrite Ht, Hv, List.filter_app, Fsvc. by split.
    - left. rewrite Ht, Hv, !List.filter_app, Fsvc, Fing. by split.
    - rewrite Ht, Hv, !List.filter_app, Fsvc, Fing, Frts.
      destruct (value (createOrUpdateRoutes es ns _)) as [err|]; [left; by split|].
      right. split; [done|]. split; [done|].
      by rewrite !app_assoc, last_snoc. }
  assert (Hmalformed : ∀ ns name e, SplitMetaNamespaceKey key = (ns, name, Some e) →
            List.filter is_recorder (trace (syncHandler key w)) = []).
  { intros ns name e Hsplit. unfold syncHandler. rewrite Hsplit. reflexivity. }
  assert (Hmissing : ∀ ns name err wa,
            SplitMetaNamespaceKey key = (ns, name, None) →
            lister_Get ns name w = (Fail err, wa) →
            List.filter is_recorder (trace (syncHandler key w)) = []).
  { intros ns name err wa Hsplit Hget. unfold syncHandler. rewrite Hsplit. run_simpl.
    rewrite Hget. cbn [fst snd]. destruct (IsNotFound err); reflexivity. }
  assert (Honce : List.filter is_recorder (trace (syncHandler key w)) = [] ∨
    value (syncHandler key w) = None ∧
    ∃ es, List.filter is_recorder (trace (syncHandler key w)) =
            [RecorderEvent es EventTypeNormal SuccessSynced MessageResourceSynced] ∧
          last (trace (syncHandler key w)) =
            Some (RecorderEvent es EventTypeNormal SuccessSynced MessageResourceSynced)).
  { destruct (SplitMetaNamespaceKey key) as [[ns name] [e|]] eqn:Hsplit.
    - left. by apply (Hmalformed ns name e).
    - destruct (lister_Get ns name w) as [[es|err] wa] eqn:Hget.
      + destruct (Hparts ns name es wa eq_refl Hget) as [[? _]|(? & ? & ?)];
          [by left|]. right. split; [done|]. exists es. by split.
      + left. by apply (Hmissing ns name err wa). }
  split; [exact Honce|]. split; [|split; [|split]].
  - intros err Hv. destruct Honce as [?|[Hnil _]]; [done|]. by rewrite Hv in Hnil.
  - exact Hmalformed.
  - exact Hmissing.
  - intros ns name es wa Hsplit Hget Hnil.
    by destruct (Hparts ns name es wa Hsplit Hget) as [[_ ?]|(_ & ? & ?)].
Qed.

(** X9.  The route step fails the reconciliation on every error it meets:
    without a client for route rules it returns an error before resolving
    anything; a lookup error of the route rule other than not-found is
    returned with nothing written; and whatever error the step returns,
    an already-exists from the creation of the route rule included, is
    returned by [syncHandler] after a last log line. *)
Theorem X9_route_step_errors_fail_the_sync u ns (w : W) :
  (RouteRules ns = None →
   createOrUpdateRoutes u ns w =
     {| value := Some (ErrorString "Couldn't get a routeClient"); world := w;
        trace := [LogPrintf "Failed to create resource client" []] |}) ∧
  (∀ rc routes err w2,
     RouteRules ns = Some rc →
     value (getRoutes u w) = (routes, None) →
     routes ≠ [] →
     Get rc (GetElaIstioRouteRuleName u) (world (getRoutes u w)) = (Fail err, w2) →
     IsNotFound err = false →
     value (createOrUpdateRoutes u ns w) = Some err ∧
     world (createOrUpdateRoutes u ns w) = w2 ∧
     List.filter is_write (trace (createOrUpdateRoutes u ns w)) = []) ∧
  (∀ key name w0 wa err,
     SplitMetaNamespaceKey key = (ns, name, None) →
     lister_Get ns name w0 = (Reply u, wa) →
     let svc := createPlaceholderService u ns wa in
     value svc = None →
     let ing := createOrUpdateIngress u ns (world svc) in
     fatal_unless IsAlreadyExists (value ing) = None →
     world ing = w →
     value (createOrUpdateRoutes u ns w) = Some err →
     value (syncHandler key w0) = Some err ∧
     last (trace (syncHandler key w0)) =
       Some (LogPrintf "Failed to create Routes: %s" [ArgErr err])).
Proof.
  split; [|split].
  - intros Hrc. unfold createOrUpdateRoutes. rewrite Hrc. reflexivity.
  - intros rc routes err w2 Hrc Hroutes Hne Hget Hnf.
    pose proof (createOrUpdateRoutes_nonempty u ns rc routes w Hrc Hroutes Hne) as Hout.
    cbv zeta in Hout. rewrite Hget, Hnf in Hout. rewrite Hout. cbn [value world trace].
    split; [done|]. split; [done|].
    rewrite !List.filter_app,
      (filter_none _ _ (getRoutes_writes_nothing u w)),
      (filter_none _ _ (logRoutes_writes_nothing routes _)). reflexivity.
  - intros key name w0 wa err Hsplit Hget svc Hsvc ing Hing Hw Hrts.
    destruct (syncHandler_routes_step key ns name u w0 wa Hsplit Hget Hsvc Hing)
      as (Hv & _ & Ht).
    fold svc ing in Hv, Ht. rewrite Hw in Hv, Ht. rewrite Hrts in Hv, Ht.
    split; [done|]. by rewrite Ht, !app_assoc, last_snoc.
Qed.

Lemma getRoutes_loop_cons ns tt_ tts acc (w : W) :
  getRoutes_loop ns (tt_ :: tts) acc w =
    let r := getRouteForTrafficTarget tt_ ns w in
    match value r with
    | (_, Some err) =>
        {| value := ([], Some err); world := world r;
           trace := trace r ++
             [LogPrintf "Failed to get a route for target %+v : %q"
                        [ArgTarget tt_; ArgErr err]] |}
    | (rr, None) =>
        let r' := getRoutes_loop ns tts (acc ++ [rr]) (world r) in
        {| value := value r'; world := world r'; trace := trace r ++ trace r' |}
    end.
Proof.
  cbn [getRoutes_loop]. cbv zeta.
  apply outcome_ext; run_simpl;
    by destruct (value (getRouteForTrafficTarget tt_ ns w)) as [rr [err|]].
Qed.

Lemma getRoutes_loop_stops ns pre tt_ post post' revs err acc (w w1 w2 : W) :
  spec_resolve_all ns pre w = (Reply revs, w1) →
  spec_resolve ns tt_ w1 = (Fail err, w2) →
  getRoutes_loop ns (pre ++ tt_ :: post) acc w =
  getRoutes_loop ns (pre ++ tt_ :: post') acc w.
Proof.
  revert revs acc w. induction pre as [|p pre IH]; intros revs acc w; cbn [app].
  - cbn [spec_resolve_all]. intros [= _ <-] Hfail. rewrite !getRoutes_loop_cons. cbv zeta.
    destruct (getRouteForTrafficTarget_refines tt_ ns w) as [_ Hv].
    rewrite Hfail in Hv. cbn [fst] in Hv. by rewrite Hv.
  - cbn [spec_resolve_all].
    destruct (spec_resolve ns p w) as [[rev|e] wa] eqn:Hp; [|discriminate].
    destruct (spec_resolve_all ns pre wa) as [[revs'|e] wb] eqn:Hpre; [|discriminate].
    intros [= _ <-] Hfail. rewrite !getRoutes_loop_cons. cbv zeta.
    destruct (getRouteForTrafficTarget_refines p ns w) as [Hw Hv].
    rewrite Hp in Hw, Hv. cbn [fst snd] in Hw, Hv. rewrite Hv, Hw.
    by rewrite (IH revs' _ wa Hpre Hfail).
Qed.

(** X11.  Resolution stops at the first target that does not resolve: the
    targets after it are never looked at, so that two resources that agree
    on name, namespace and the targets up to and including the failing one
    give the very same run of [getRoutes], call for call. *)
Theorem X11_resolution_stops_at_first_failure
    u u' pre tt_ post post' revs err (w w1 w2 : W) :
  es_Traffic u = pre ++ tt_ :: post →
  es_Traffic u' = pre ++ tt_ :: post' →
  es_Name u' = es_Name u →
  es_Namespace u' = es_Namespace u →
  spec_resolve_all (es_Namespace u) pre w = (Reply revs, w1) →
  spec_resolve (es_Namespace u) tt_ w1 = (Fail err, w2) →
  getRoutes u' w = getRoutes u w.
Proof.
  intros Ht Ht' Hname Hns Hpre Hfail. unfold getRoutes.
  rewrite Ht, Ht', Hname, Hns.
  apply outcome_ext; run_simpl;
    by rewrite (getRoutes_loop_stops _ pre tt_ post' post revs err [] _ w1 w2 Hpre Hfail).
Qed.

(** X12.  [getRoutes] returns the empty list without an error exactly for a
    resource that has no traffic target; with at least one target it returns
    either an error or at least one route. *)
Theorem X12_no_routes_iff_no_targets u (w : W) :
  value (getRoutes u w) = ([], None) ↔ es_Traffic u = [].
Proof.
  split.
  - intros Hv. destruct (getRoutes_refines u w) as [_ Hr]. rewrite Hv in Hr.
    destruct (spec_resolve_all (es_Namespace u) (es_Traffic u) w)
      as [[revs|err] w'] eqn:Hres; cbn [fst] in Hr; [|discriminate].
    pose proof (spec_resolve_all_length _ _ _ _ _ Hres) as Hlen.
    destruct (es_Traffic u) as [|t ts]; [done|].
    destruct revs as [|r rs]; [discriminate|]. cbn in Hr. discriminate.
  - intros Ht. unfold getRoutes. run_simpl. by rewrite Ht.
Qed.

Lemma resolver_reads_in tt_ ns :
  emits (reads_in ns) (getRouteForTrafficTarget tt_ ns).
Proof. unfold getRouteForTrafficTarget. repeat emits_more; by cbn. Qed.

Lemma getRoutes_loop_reads_in ns tts acc :
  emits (reads_in ns) (getRoutes_loop ns tts acc).
Proof.
  revert acc. induction tts as [|tt_ tts IH]; intros acc; cbn [getRoutes_loop].
  - apply emits_ret.
  - apply emits_bind; [apply resolver_reads_in|].
    intros [rr [err|]]; [|apply IH]. repeat emits_more; by cbn.
Qed.

Lemma getRouteForTrafficTarget_calls tt_ ns (w : W) :
  (length (List.filter is_api_call (trace (getRouteForTrafficTarget tt_ ns w))) ≤ 2)%nat.
Proof.
  unfold getRouteForTrafficTarget. run_simpl.
  destruct (bool_decide (RevisionTemplate tt_ ≠ "")); run_simpl.
  - destruct (Get (RevisionTemplates ns) _ w) as [[rt|err] w1]; run_simpl; cbn; [|lia].
    destruct (Get (Revisions ns) _ w1) as [[rev|err] w2]; run_simpl; cbn; lia.
  - destruct (Get (Revisions ns) _ w) as [[rev|err] w2]; run_simpl; cbn; lia.
Qed.

Lemma getRoutes_loop_calls ns tts acc (w : W) :
  (length (List.filter is_api_call (trace (getRoutes_loop ns tts acc w)))
   ≤ 2 * length tts)%nat.
Proof.
  revert acc w. induction tts as [|tt_ tts IH]; intros acc w; [cbn; lia|].
  rewrite getRoutes_loop_cons. cbv zeta.
  pose proof (getRouteForTrafficTarget_calls tt_ ns w) as Hone.
  destruct (value (getRouteForTrafficTarget tt_ ns w)) as [rr [err|]];
    cbn [trace]; rewrite List.filter_app, length_app.
  - cbn [List.filter is_api_call length]. lia.
  - specialize (IH (acc ++ [rr]) (world (getRouteForTrafficTarget tt_ ns w))).
    cbn [length]. lia.
Qed.

(** X14.  Route resolution only reads: every call [getRoutes] makes is a
    read of a revision or of a template in the namespace recorded on the
    resource itself, it writes nothing, and it makes at most two such reads
    per traffic target. *)
Theorem X14_resolution_only_reads u (w : W) :
  Forall (reads_in (es_Namespace u)) (trace (getRoutes u w)) ∧
  List.filter is_write (trace (getRoutes u w)) = [] ∧
  (length (List.filter is_api_call (trace (getRoutes u w)))
   ≤ 2 * length (es_Traffic u))%nat.
Proof.
  split; [|split].
  - unfold getRoutes. rewrite bind_trace. apply Forall_app. split.
    + by repeat constructor.
    + apply getRoutes_loop_reads_in.
  - apply filter_none, getRoutes_writes_nothing.
  - unfold getRoutes. rewrite bind_trace, List.filter_app, length_app. cbn [Printf emit call_ call trace List.filter is_api_call length].
    apply (getRoutes_loop_calls (es_Namespace u) (es_Traffic u) []).
Qed.

(** X15.  A target without a template is resolved by a single read, of the
    revision its [Revision] field names, be that name empty; no template is
    fetched; the route is composed from that revision, and on an error the
    route returned is the zero value. *)
Theorem X15_direct_revision_is_one_read tt_ ns (w : W) :
  RevisionTemplate tt_ = "" →
  let fetch := Get (Revisions ns) (Revision tt_) w in
  world (getRouteForTrafficTarget tt_ ns w) = fetch.2 ∧
  value (getRouteForTrafficTarget tt_ ns w) =
    match fetch.1 with
    | Reply rev => (route_of ns tt_ rev, None)
    | Fail err => (zeroRoute, Some err)
    end ∧
  List.filter is_api_call (trace (getRouteForTrafficTarget tt_ ns w)) =
    [ApiGet KRevision ns (Revision tt_)].
Proof.
  intros Hdirect fetch. unfold getRouteForTrafficTarget. rewrite Hdirect.
  rewrite bool_decide_eq_false_2 by (by intros ?). run_simpl. fold fetch.
  destruct fetch.1 as [rev|err]; run_simpl; by repeat split.
Qed.

Lemma createPlaceholderService_owned u ns :
  emits (λ ev, writes_to ns ev ∧ owned_by u ev) (createPlaceholderService u ns).
Proof.
  unfold createPlaceholderService. repeat emits_more; split; cbn; try done;
    apply last_snoc.
Qed.

Lemma createOrUpdateIngress_owned es ns :
  emits (λ ev, writes_to ns ev ∧ owned_by es ev) (createOrUpdateIngress es ns).
Proof.
  unfold createOrUpdateIngress. repeat emits_more; split; cbn; try done;
    apply last_snoc.
Qed.

Lemma createOrUpdateRoutes_owned u ns :
  emits (λ ev, writes_to ns ev ∧ owned_by u ev) (createOrUpdateRoutes u ns).
Proof.
  unfold createOrUpdateRoutes. destruct (RouteRules ns) as [routeClient|].
  - apply emits_bind.
    { eapply emits_weaken; [|apply getRoutes_emits].
      intros ev. by destruct ev as [[] ? ?| | | | | | | | | | | |]. }
    intros [routes [err|]]; [repeat emits_more; by split|].
    destruct (length routes =? 0)%nat; [repeat emits_more; by split|].
    apply emits_bind; [by apply logRoutes_emits|].
    intros _. repeat emits_more; by split.
  - repeat emits_more; by split.
Qed.

(** X13.  Every object a reconciliation creates or updates goes to the
    namespace taken from the key, whatever namespace the resource itself
    records, and every placeholder service and ingress it creates carries
    the controller reference of the reconciled resource as its last owner
    reference. *)
Theorem X13_writes_stay_in_the_key_namespace key ns name es (w0 wa : W) :
  SplitMetaNamespaceKey key = (ns, name, None) →
  lister_Get ns name w0 = (Reply es, wa) →
  Forall (λ ev, writes_to ns ev ∧ owned_by es ev) (trace (syncHandler key w0)).
Proof.
  intros Hsplit Hget.
  assert (Hpro : Forall (λ ev, writes_to ns ev ∧ owned_by es ev)
                        (sync_prologue ns name es)) by (by repeat constructor).
  pose proof (createPlaceholderService_owned es ns) as Hsvc.
  pose proof (createOrUpdateIngress_owned es ns) as Hing.
  pose proof (createOrUpdateRoutes_owned es ns) as Hrts.
  destruct (syncHandler_cases key ns name es w0 wa Hsplit Hget)
    as [(err & _ & ->)|[(err & _ & ->)|(_ & ->)]];
    rewrite ?Forall_app; repeat split;
    try done; try apply Hsvc; try apply Hing; try apply Hrts;
    try (by repeat constructor).
  destruct (value (createOrUpdateRoutes es ns _)); by repeat constructor.
Qed.
End ReconcilerFacts.

(** * Further runs on the sample cluster *)

(** X1 on the sample cluster: a key with two slashes. *)
Lemma X1_witness :
  syncHandler "a/b/c" Fake.cluster =
    {| value := None; world := Fake.cluster;
       trace := [HandleError (ErrorString "invalid resource key: a/b/c")] |}.
Proof.
  exact (proj1 (X1_malformed_key_is_dropped "a/b/c" "" ""
                  (ErrorString "unexpected key format: a/b/c") Fake.cluster eq_refl)).
Defined.

(** X2 on the sample cluster with a stray item on the queue. *)
Lemma X2_witness :
  queue_calls (trace (processNextWorkItem Fake.cluster_stray_item)) =
    [QueueGet; QueueForget (QOther "42"); QueueDone (QOther "42")].
Proof.
  destruct (X2_non_string_item_is_forgotten "42" Fake.cluster_stray_item
              (workqueue_Get Fake.cluster_stray_item).2) as (_ & _ & Hcalls & _);
    [vm_compute; reflexivity|exact Hcalls].
Defined.

(** X4 on the sample cluster with the key of [svc-a] on the queue. *)
Lemma X4_witness :
  List.filter is_done (trace (processNextWorkItem Fake.cluster_enqueued)) =
    [QueueDone (QString "default/svc-a")].
Proof.
  destruct (X4_done_exactly_once (QString "default/svc-a") Fake.cluster_enqueued
              (workqueue_Get Fake.cluster_enqueued).2) as (Hdone & _);
    [vm_compute; reflexivity|exact Hdone].
Defined.

(** X6 on the sample cluster: the key of [svc-a]. *)
Lemma X6_witness :
  trace (handleNotification (Added Fake.svc_a) Fake.cluster) =
    [QueueAddRateLimited (QString "default/svc-a")] ∧
  head (trace (syncHandler "default/svc-a" Fake.cluster)) =
    Some (ListerGet "default" "svc-a").
Proof.
  destruct (X6_enqueued_key_names_the_resource Fake.svc_a "default/svc-a" Fake.cluster)
    as (Hadd & _ & _ & Hlookup & _); [reflexivity|reflexivity|].
  split; [exact Hadd|exact (Hlookup Fake.cluster)].
Defined.

(** X8 on the reconciled sample cluster: the ingress is found. *)
Lemma X8_witness :
  createOrUpdateIngress Fake.svc_a "default" Fake.synced =
    {| value := None; world := Fake.synced;
       trace := [ApiGet KIngress "default" "svc-a-ela-ingress"] |}.
Proof.
  assert (Hget : Get (Ingresses "default") (GetElaK8SIngressName Fake.svc_a) Fake.synced =
                 (Reply Fake.ingress_a, Fake.synced)) by (vm_compute; reflexivity).
  exact (X8_ingress_found_or_unreadable_is_not_written Fake.svc_a "default"
           (Reply Fake.ingress_a) Fake.synced Fake.synced Hget).
Defined.

(** X11 on the sample cluster without [rev-2]: a third target after the
    failing second one changes nothing. *)
Lemma X11_witness :
  getRoutes Fake.svc_a_more Fake.cluster_without_rev_2 =
  getRoutes Fake.svc_a Fake.cluster_without_rev_2.
Proof.
  apply (X11_resolution_stops_at_first_failure Fake.svc_a Fake.svc_a_more
           [ {| Revision := "rev-1"; RevisionTemplate := ""; Percent := 90 |} ]
           {| Revision := "rev-2"; RevisionTemplate := ""; Percent := 10 |}
           [] [ {| Revision := "rev-3"; RevisionTemplate := ""; Percent := 0 |} ]
           [Fake.rev_1] (Fake.notFound "rev-2")
           Fake.cluster_without_rev_2 Fake.cluster_without_rev_2
           Fake.cluster_without_rev_2);
    [reflexivity|reflexivity|reflexivity|reflexivity
    |vm_compute; reflexivity|vm_compute; reflexivity].
Defined.

(** X13 on the sample cluster: the first reconciliation of [svc-a]. *)
Lemma X13_witness :
  Forall (λ ev, writes_to "default" ev ∧ owned_by Fake.svc_a ev)
         (trace (syncHandler "default/svc-a" Fake.cluster)).
Proof.
  apply (X13_writes_stay_in_the_key_namespace "default/svc-a" "default" "svc-a"
           Fake.svc_a Fake.cluster Fake.cluster);
    [reflexivity|vm_compute; reflexivity].
Defined.

(** X15 on the sample cluster: the first target of [svc-a]. *)
Lemma X15_witness :
  value (getRouteForTrafficTarget
           {| Revision := "rev-1"; RevisionTemplate := ""; Percent := 90 |}
           "default" Fake.cluster) =
    ({| Service := "rev-1-svc.default-ela"; Weight := 90 |}, None).
Proof.
  destruct (X15_direct_revision_is_one_read
              {| Revision := "rev-1"; RevisionTemplate := ""; Percent := 90 |}
              "default" Fake.cluster eq_refl) as (_ & Hvalue & _).
  rewrite Hvalue. vm_compute. reflexivity.
Defined.

(** X3 on the sample cluster, whose queue is empty and reported shut down. *)
Lemma X3_witness :
  value (processNextWorkItem Fake.cluster) = false ∧
  trace (processNextWorkItem Fake.cluster) = [QueueGet].
Proof.
  destruct (X3_worker_stops_only_on_shutdown Fake.cluster) as (Hvalue & Hdown).
  split; [rewrite Hvalue; reflexivity|].
  exact (proj2 (Hdown eq_refl)).
Defined.

(** X5 on the sample cluster with the key of [svc-a] on the queue: the
    worker reconciles it and ends on the next [Get]. *)
Lemma X5_witness :
  value (runWorker 5 Fake.cluster_enqueued) = true ∧
  last (trace (runWorker 5 Fake.cluster_enqueued)) = Some QueueGet.
Proof.
  assert (Hended : value (runWorker 5 Fake.cluster_enqueued) = true)
    by (vm_compute; reflexivity).
  destruct (X5_runWorker_pairs_get_with_done 5 Fake.cluster_enqueued)
    as (_ & _ & _ & Hlast).
  split; [exact Hended|exact (Hlast Hended)].
Defined.

(** X7 on the sample cluster: a deletion of [svc-a]. *)
Lemma X7_witness :
  trace (handleNotification (Deleted Fake.svc_a) Fake.cluster) = [] ∧
  world (handleNotification (Deleted Fake.svc_a) Fake.cluster) = Fake.cluster.
Proof.
  destruct (X7_notifications_enqueue_at_most_once (Deleted Fake.svc_a) Fake.cluster)
    as (_ & _ & Hdeleted & _).
  exact (Hdeleted Fake.svc_a eq_refl).
Defined.

(** X9 on the sample cluster: without a client for route rules, and with
    route rules that cannot be read. *)
Lemma X9_witness :
  value (createOrUpdateRoutes (Clientset0 := Fake.clientset_without_rules)
           Fake.svc_a "default" Fake.cluster) =
    Some (ErrorString "Couldn't get a routeClient") ∧
  value (createOrUpdateRoutes Fake.svc_a "default" Fake.cluster_rules_forbidden) =
    Some Fake.forbidden.
Proof.
  split.
  - destruct (X9_route_step_errors_fail_the_sync
                (Clientset0 := Fake.clientset_without_rules)
                Fake.svc_a "default" Fake.cluster) as (Hnil & _).
    rewrite Hnil; reflexivity.
  - destruct (X9_route_step_errors_fail_the_sync
                Fake.svc_a "default" Fake.cluster_rules_forbidden) as (_ & Hget & _).
    destruct (Hget Fake.routeClient Fake.routes_a Fake.forbidden
                Fake.cluster_rules_forbidden) as (Hvalue & _);
      [reflexivity|vm_compute; reflexivity|discriminate|vm_compute; reflexivity
      |reflexivity|exact Hvalue].
Defined.

(** X10 on the sample cluster: the reconciliation of [svc-a] succeeds and
    ends with the event. *)
Lemma X10_witness :
  last (trace (syncHandler "default/svc-a" Fake.cluster)) =
    Some (RecorderEvent Fake.svc_a "Normal" "Synced" "ElaService synced successfully").
Proof.
  destruct (X10_synced_event_only_on_success "default/svc-a" Fake.cluster)
    as (_ & _ & _ & _ & Hlast).
  apply (Hlast "default" "svc-a" Fake.svc_a Fake.cluster);
    [reflexivity|vm_compute; reflexivity|vm_compute; reflexivity].
Defined.

(** X12 on the sample cluster: the resource without targets. *)
Lemma X12_witness :
  value (getRoutes Fake.svc_idle Fake.cluster) = ([], None).
Proof.
  exact (proj2 (X12_no_routes_iff_no_targets Fake.svc_idle Fake.cluster) eq_refl).
Defined.
